(** * Auto-anchor utilities of yolov5_obb ([utils/autoanchor.py])

    A shallow embedding of [check_anchor_order], [check_anchors] and
    [kmean_anchors], and the properties of the anchor pipeline proved on it.

    Conventions of the embedding.
    - Tensor and array entries are exact rationals ([Q]).  Rounding, infinities
      and NaN of the float32/float64 arithmetic are not represented: a division
      by zero yields [0] (as [Qdiv] does) and the mean of an empty collection is
      [0] where torch yields NaN.  The tests of lines 64 and 74 on such a
      mean come out false in both readings.
    - A [(K,2)] array is a [list wh]; the [(levels, anchors, 2)] anchor tensor
      of the detection head is a [list (list wh)].
    - Python exceptions, the log of [LOGGER.info]/[print] calls, the in-place
      update of [m.anchors] and the consumption of random draws are threaded
      through the monad [M] below. *)

From Stdlib Require Import String.
From Stdlib Require Import List Bool Arith ZArith QArith Qminmax Lia Lqa.
From Stdlib Require Import Permutation Sorted.
Import ListNotations.
Open Scope Q_scope.

(** ** Numbers, rows and Python indexing *)

(** One row of a [(.,2)] array: the two edge lengths of a box or an anchor. *)
Definition wh : Type := (Q * Q)%type.

(** [x.prod(-1)] on one row. *)
Definition area (a : wh) : Q := fst a * snd a.

(** [x > y] on numbers. *)
Definition Qgtb (x y : Q) : bool := negb (Qle_bool x y).

(** [x < y] on numbers. *)
Definition Qltb (x y : Q) : bool := Qgtb y x.

(** Elementwise [torch.min] / [torch.max] of two numbers. *)
Definition qmin (x y : Q) : Q := if Qle_bool x y then x else y.
Definition qmax (x y : Q) : Q := if Qle_bool x y then y else x.

(** [t.sign()]: -1, 0 or 1. *)
Definition sign (x : Q) : Z := Z.sgn (Qnum x).

(** [(b).float()] of a boolean. *)
Definition indicator (b : bool) : Q := if b then 1 else 0.

Definition Qsum (l : list Q) : Q := fold_right Qplus 0 l.

(** [t.mean()] over all entries of [t]. *)
Definition mean (l : list Q) : Q := Qsum l / inject_Z (Z.of_nat (length l)).

(** Python's [l[i]] with negative indices counted from the end;
    [None] stands for the [IndexError]. *)
Definition getitem {A : Type} (l : list A) (i : Z) : option A :=
  let n := Z.of_nat (length l) in
  let j := if (i <? 0)%Z then (i + n)%Z else i in
  if ((0 <=? j)%Z && (j <? n)%Z)%bool then nth_error l (Z.to_nat j) else None.

(** ** Exceptions, log and state *)

Inductive exn : Type :=
| IndexError
| RuntimeError
| ValueError
| AssertionError
| OtherError (what : string).

(** The detection head [m = model.model[-1]]: the anchor tensor
    [(levels, anchors per level, 2)] and the stride of each level. *)
Record Detect : Type := mkDetect {
  anchors : list (list wh);
  stride : list Q
}.

(** One call of line 189 draws a uniform array [npr.random(sh)], a uniform
    scalar [random.random()] and a normal array [npr.randn( *sh)]; the arrays
    are read at (row, column). *)
Record draw : Type := mkDraw {
  d_uniform : nat -> nat -> Q;
  d_scale : Q;
  d_normal : nat -> nat -> Q
}.

(** What the functions write: one constructor per [LOGGER.info] / [print]
    call site, and a marker set on entry of [kmean_anchors]. *)
Inductive event : Type :=
| Log_reversing                                   (* line 26 *)
| Log_good_fit (aat bpr : Q)                      (* line 65 *)
| Log_poor_fit (aat bpr : Q)                      (* line 67 *)
| Log_error (e : exn)                             (* line 72 *)
| Log_saved                                       (* line 78 *)
| Log_original_better                             (* line 80 *)
| Enter_kmean_anchors (n : nat) (gen : nat)       (* line 83 *)
| Print_labels                                    (* line 140 *)
| Print_edges (ls_edges0 : list wh)               (* line 146 *)
| Log_small_objects (i total : nat)               (* line 150 *)
| Log_running_kmeans (n points : nat)             (* line 159 *)
| Log_results (k : list wh) (bpr aat : Q).        (* line 126 *)

Record world : Type := mkWorld {
  head : Detect;          (* the detection head of the model *)
  log : list event;       (* oldest first *)
  tape : list draw        (* the draws the random sources will return *)
}.

(** A run returns, raises, or asks for a draw the tape does not hold
    (the Python loop would go on drawing). *)
Inductive res (A : Type) : Type :=
| Ret (a : A) (w : world)
| Exc (e : exn) (w : world)
| Starved.
Arguments Ret {A} a w.
Arguments Exc {A} e w.
Arguments Starved {A}.

Definition M (A : Type) : Type := world -> res A.

Definition ret {A} (a : A) : M A := fun w => Ret a w.

Definition bind {A B} (m : M A) (k : A -> M B) : M B :=
  fun w => match m w with
           | Ret a w' => k a w'
           | Exc e w' => Exc e w'
           | Starved => Starved
           end.

Definition raise {A} (e : exn) : M A := fun w => Exc e w.

(** [try: body except Exception as e: handler e]. *)
Definition try_except {A} (body : M A) (handler : exn -> M A) : M A :=
  fun w => match body w with
           | Exc e w' => handler e w'
           | r => r
           end.

Definition emit (e : event) : M unit :=
  fun w => Ret tt (mkWorld (head w) (log w ++ [e]) (tape w)).

Definition get_head : M Detect := fun w => Ret (head w) w.

(** [m.anchors[:] = a]. *)
Definition set_anchors (a : list (list wh)) : M unit :=
  fun w => Ret tt (mkWorld (mkDetect a (stride (head w))) (log w) (tape w)).

(** An index out of range raises [IndexError]. *)
Definition index {A} (o : option A) : M A :=
  match o with Some a => ret a | None => raise IndexError end.

(** A pure computation that may raise. *)
Definition lift {A} (r : exn + A) : M A :=
  match r with inl e => raise e | inr a => ret a end.

Declare Scope monad_scope.
Delimit Scope monad_scope with monad.
Notation "x <- m ;; k" := (bind m (fun x => k))
  (at level 61, m at next level, right associativity) : monad_scope.
Notation "m ;;; k" := (bind m (fun _ => k))
  (at level 61, right associativity) : monad_scope.
Open Scope monad_scope.

(** ** [check_anchor_order] (lines 20-27) *)

(** [m.anchors.prod(-1).view(-1)]: the area of every anchor, flattened in
    level order. *)
Definition anchor_areas (a : list (list wh)) : list Q :=
  concat (map (map area) a).

Definition check_anchor_order : M unit :=
  m <- get_head ;;
  let a := anchor_areas (anchors m) in
  a_last <- index (getitem a (-1)) ;;
  a_first <- index (getitem a 0) ;;
  let da := a_last - a_first in
  s_last <- index (getitem (stride m) (-1)) ;;
  s_first <- index (getitem (stride m) 0) ;;
  let ds := s_last - s_first in
  if negb (sign da =? sign ds)%Z then
    emit Log_reversing ;;;
    set_anchors (rev (anchors m))
  else ret tt.

(** The contract of section 4.1 of the specification, in its words: the mean
    anchor area of each level, the sign of (area[last] - area[first]) against
    the sign of (stride[last] - stride[first]), the levels reversed when the
    signs differ. *)
Definition spec_level_mean_area (level : list wh) : Q := mean (map area level).

Definition spec_check_anchor_order : M unit :=
  m <- get_head ;;
  let a := map spec_level_mean_area (anchors m) in
  a_last <- index (getitem a (-1)) ;;
  a_first <- index (getitem a 0) ;;
  s_last <- index (getitem (stride m) (-1)) ;;
  s_first <- index (getitem (stride m) 0) ;;
  if negb (sign (a_last - a_first) =? sign (s_last - s_first))%Z then
    emit Log_reversing ;;;
    set_anchors (rev (anchors m))
  else ret tt.

(** The first anchor of the first level and the last anchor of the last
    level. *)
Definition last_error {A} (l : list A) : option A := hd_error (rev l).

Definition first_anchor (a : list (list wh)) : option wh :=
  match hd_error a with Some l => hd_error l | None => None end.

Definition last_anchor (a : list (list wh)) : option wh :=
  match last_error a with Some l => last_error l | None => None end.

(** ** The ratio metric (lines 53-59 and 104-108) *)

(** [r = wh[:, None] / k[None]] at one box and one anchor. *)
Definition ratio_row (b a : wh) : wh := (fst b / fst a, snd b / snd a).

(** [torch.min(r, 1 / r)] at one box and one anchor. *)
Definition min_inv (r : wh) : wh :=
  (qmin (fst r) (1 / fst r), qmin (snd r) (1 / snd r)).

(** [.min(2)[0]] over the two columns of one (box, anchor) entry. *)
Definition min_cols (r : wh) : Q := qmin (fst r) (snd r).

(** [x = torch.min(r, 1 / r).min(2)[0]] for a [(K,2)] anchor array: one row
    per box, one column per anchor. *)
Definition ratio_metric (boxes k : list wh) : list (list Q) :=
  map (fun b => map (fun a => min_cols (min_inv (ratio_row b a))) k) boxes.

(** The largest entry of a non-empty row. *)
Definition max_list (l : list Q) : Q :=
  match l with
  | [] => 0
  | x :: xs => fold_left qmax xs x
  end.

(** [x.max(1)[0]]: torch refuses to reduce an axis of size zero. *)
Definition max_axis1 (K : nat) (x : list (list Q)) : exn + list Q :=
  match K with
  | O => inl IndexError
  | S _ => inr (map max_list x)
  end.

(** [(x > t).float()] on a number. *)
Definition above (t : Q) (x : Q) : Q := indicator (Qgtb x t).

(** Broadcasting of two operands along one axis: equal sizes pair up, a size
    of one is repeated, anything else is torch's [RuntimeError]. *)
Definition broadcast {A B C} (f : A -> B -> C) (xs : list A) (ys : list B)
  : exn + list C :=
  if (List.length xs =? List.length ys)%nat
  then inr (map (fun p => f (fst p) (snd p)) (combine xs ys))
  else match xs, ys with
       | [x], _ => inr (map (f x) ys)
       | _, [y] => inr (map (fun x => f x y) xs)
       | _, _ => inl RuntimeError
       end.

(** Columnwise reduction of the rows of a [(n,2)] slice; torch refuses
    [n = 0]. *)
Definition reduce_cols (f : Q -> Q -> Q) (rows : list wh) : exn + wh :=
  match rows with
  | [] => inl IndexError
  | r :: rs =>
      inr (fold_left (fun acc x => (f (fst acc) (fst x), f (snd acc) (snd x)))
                     rs r)
  end.

Fixpoint sequence {A} (l : list (exn + A)) : exn + list A :=
  match l with
  | [] => inr []
  | inl e :: _ => inl e
  | inr a :: rest =>
      match sequence rest with
      | inl e => inl e
      | inr r => inr (a :: r)
      end
  end.

(** What the variable [anchors] of [check_anchors] holds when [metric] is
    called on it: the [(levels, anchors, 2)] tensor of line 61, or the
    [(n,2)] array [kmean_anchors] returned. *)
Inductive anchors_value : Type :=
| Tensor3 (a : list (list wh))
| Array2 (k : list wh).

(** [metric] of [check_anchors] on a [(K,2)] array. *)
Definition metric_array (ls_edges : list wh) (thr : Q) (k : list wh)
  : exn + (Q * Q) :=
  let x := ratio_metric ls_edges k in
  match max_axis1 (List.length k) x with
  | inl e => inl e
  | inr best =>
      let aat := mean (map (fun row => Qsum (map (above (1 / thr)) row)) x) in
      let bpr := mean (map (above (1 / thr)) best) in
      inr (bpr, aat)
  end.

(** [metric] of [check_anchors] on the three-dimensional tensor.
    [ls_edges[:, None]] has shape (N,1,2) and [k[None]] shape (1,levels,na,2):
    the division broadcasts N against levels, [.min(2)] reduces the anchors of
    a level, [.max(1)] and [.sum(1)] reduce the broadcast axis and the two
    [mean]s average the two columns that are left. *)
Definition metric_tensor (ls_edges : list wh) (thr : Q) (a : list (list wh))
  : exn + (Q * Q) :=
  match broadcast (fun b level => map (fun p => min_inv (ratio_row b p)) level)
                  ls_edges a with
  | inl e => inl e
  | inr r =>
      match sequence (map (reduce_cols qmin) r) with
      | inl e => inl e
      | inr x =>
          match reduce_cols qmax x with
          | inl e => inl e
          | inr best =>
              let t := 1 / thr in
              let aat := mean [Qsum (map (fun v => above t (fst v)) x);
                               Qsum (map (fun v => above t (snd v)) x)] in
              let bpr := mean [above t (fst best); above t (snd best)] in
              inr (bpr, aat)
          end
      end
  end.

Definition metric (ls_edges : list wh) (thr : Q) (k : anchors_value)
  : exn + (Q * Q) :=
  match k with
  | Array2 k => metric_array ls_edges thr k
  | Tensor3 a => metric_tensor ls_edges thr a
  end.

(** [metric] of [kmean_anchors]: [x] and [best]. *)
Definition metric_x_best (k wh_ : list wh) : exn + (list (list Q) * list Q) :=
  let x := ratio_metric wh_ k in
  match max_axis1 (List.length k) x with
  | inl e => inl e
  | inr best => inr (x, best)
  end.

(** [anchor_fitness] (lines 110-113); [thr] is the inverted threshold of
    line 102. *)
Definition anchor_fitness (ls_edges : list wh) (thr : Q) (k : list wh)
  : exn + Q :=
  match metric_x_best k ls_edges with
  | inl e => inl e
  | inr (_, best) => inr (mean (map (fun b => b * above thr b) best))
  end.

(** The fitness of section 4.3 step 5 of the specification, in its words:
    the fit score of a box and an anchor is the smaller of the two elementwise
    [min(b/a, a/b)]; the best fit of a box is its largest score over the
    anchors; a box counts with its best fit when that exceeds the threshold
    and with zero otherwise; the fitness is the mean over the boxes. *)
Definition spec_fit_score (b a : wh) : Q :=
  Qmin (Qmin (fst b / fst a) (fst a / fst b))
       (Qmin (snd b / snd a) (snd a / snd b)).

Fixpoint spec_best_fit (b : wh) (a0 : wh) (rest : list wh) : Q :=
  match rest with
  | [] => spec_fit_score b a0
  | a1 :: rest' => Qmax (spec_fit_score b a0) (spec_best_fit b a1 rest')
  end.

Definition spec_contribution (t : Q) (a0 : wh) (rest : list wh) (b : wh) : Q :=
  let s := spec_best_fit b a0 rest in
  if Qlt_le_dec t s then s else 0.

Definition spec_fitness (boxes : list wh) (t : Q) (a0 : wh) (rest : list wh)
  : Q :=
  Qsum (map (spec_contribution t a0 rest) boxes)
  / inject_Z (Z.of_nat (List.length boxes)).

(** ** The dataset and the collaborators outside [utils/autoanchor.py] *)

(** One row of [dataset.labels[i]]: the class id and the polygon. *)
Record label : Type := mkLabel {
  cls_id : Q;
  poly : list Q
}.

Record Dataset : Type := mkDataset {
  shapes : list wh;               (* (n_imgs, [width, height]) *)
  labels : list (list label)      (* n_imgs arrays of labels *)
}.

(** The [dataset] argument of [kmean_anchors]: a path or a loaded dataset. *)
Inductive dataset_arg : Type :=
| Dataset_path (path : string)
| Dataset_loaded (d : Dataset).

(** One row of the array [poly2rbox] returns; columns 2 and 3 are the edges. *)
Record rbox : Type := mkRbox {
  rb_x : Q;
  rb_y : Q;
  rb_l : Q;
  rb_s : Q;
  rb_theta : Q
}.

(** The functions the module imports and the random jitter of line 42:
    [utils.rboxs_utils.poly2rbox], numpy's [std(0)],
    [scipy.cluster.vq.kmeans] (centroids and distortion, or the exception it
    raises), the yaml/[LoadImagesAndLabels] loading of lines 130-133, and the
    values [np.random.uniform(0.9, 1.1, ...)] returns, by position. *)
Record Collaborators : Type := mkCollaborators {
  poly2rbox : list (list Q) -> list rbox;
  np_std0 : list wh -> wh;
  scipy_kmeans : list wh -> nat -> nat -> exn + (list wh * Q);
  load_dataset : string -> exn + Dataset;
  np_random_uniform : nat -> Q
}.

(** ** Box extraction and the size filter *)

(** [img_size / dataset.shapes.max(1, keepdims=True)]. *)
Definition image_ratios (img_size : Q) (shp : list wh) : list Q :=
  map (fun s => img_size / qmax (fst s) (snd s)) shp.

(** [np.concatenate]: refuses an empty list of arrays. *)
Definition np_concatenate (arrays : list (list wh)) : exn + list wh :=
  match arrays with
  | [] => inl ValueError
  | _ => inr (concat arrays)
  end.

(** [(ls_edges0 < 5.0).any(1)] and [(ls_edges0 >= 5.0).any(1)] on one row. *)
Definition any_below_5 (b : wh) : bool := Qltb (fst b) 5 || Qltb (snd b) 5.
Definition any_at_least_5 (b : wh) : bool :=
  Qle_bool 5 (fst b) || Qle_bool 5 (snd b).

(** [ls_edges0[(ls_edges0 >= 5.0).any(1)]] (lines 51 and 152). *)
Definition filter_edges (ls_edges0 : list wh) : list wh :=
  filter any_at_least_5 ls_edges0.

(** [k[np.argsort(k.prod(1))]]: ascending by area, equal areas kept in their
    order. *)
Fixpoint insert_by_area (a : wh) (l : list wh) : list wh :=
  match l with
  | [] => [a]
  | b :: rest =>
      if Qle_bool (area a) (area b) then a :: l
      else b :: insert_by_area a rest
  end.

Definition sort_by_area (k : list wh) : list wh :=
  fold_right insert_by_area [] k.

(** ** The mutation of one generation (lines 187-190) *)

(** [x.clip(lo, hi)] and [x.clip(min=lo)] on a number. *)
Definition clip (lo hi x : Q) : Q := qmin (qmax x lo) hi.
Definition clip_min (lo x : Q) : Q := qmax x lo.

(** One entry of line 189. *)
Definition mutation_entry (mp s : Q) (d : draw) (i c : nat) : Q :=
  clip (3 # 10) 3
       (indicator (Qltb (d_uniform d i c) mp) * d_scale d * d_normal d i c * s
        + 1).

(** The array [v] of line 189 for [sh = (rows, 2)]. *)
Definition mutation_mask (mp s : Q) (rows : nat) (d : draw) : list wh :=
  map (fun i => (mutation_entry mp s d i 0, mutation_entry mp s d i 1))
      (seq 0 rows).

(** [(v == 1).all()]. *)
Definition all_ones (v : list wh) : bool :=
  forallb (fun r => Qeq_bool (fst r) 1 && Qeq_bool (snd r) 1) v.

(** The [while] loop of lines 188-189 on the draws still to come. *)
Fixpoint sample_mask (mp s : Q) (rows : nat) (tp : list draw)
  : option (list wh * list draw) :=
  match tp with
  | [] => None
  | d :: rest =>
      let v := mutation_mask mp s rows d in
      if all_ones v then sample_mask mp s rows rest else Some (v, rest)
  end.

Definition draw_mask (mp s : Q) (rows : nat) : M (list wh) :=
  fun w => match sample_mask mp s rows (tape w) with
           | None => Starved
           | Some (v, rest) => Ret v (mkWorld (head w) (log w) rest)
           end.

(** [(k.copy() * v).clip(min=2.0)]; [v] has the shape of [k]. *)
Definition mutate (k v : list wh) : list wh :=
  map (fun p => (clip_min 2 (fst (fst p) * fst (snd p)),
                 clip_min 2 (snd (fst p) * snd (snd p))))
      (combine k v).

Section Pipeline.

Variable ext : Collaborators.

(** The loop of lines 45-49 and 139-144: the edge arrays of the images that
    have boxes. *)
Definition edge_arrays (ratios : list Q) (lbls : list (list label))
  : list (list wh) :=
  flat_map
    (fun p =>
       let rboxes :=
         poly2rbox ext (map (fun l => map (Qmult (fst p)) (poly l)) (snd p)) in
       match rboxes with
       | [] => []
       | _ => [map (fun r => (rb_l r, rb_s r)) rboxes]
       end)
    (combine ratios lbls).

(** ** [kmean_anchors] (lines 83-198) *)

(** [print_results] (lines 115-127); [thr] is the inverted threshold. *)
Definition print_results (ls_edges0 : list wh) (thr : Q) (n : nat)
           (k : list wh) (verbose : bool) : M (list wh) :=
  let k := sort_by_area k in
  xb <- lift (metric_x_best k ls_edges0) ;;
  let bpr := mean (map (above thr) (snd xb)) in
  let aat := mean (map (above thr) (concat (fst xb)))
             * inject_Z (Z.of_nat n) in
  (if verbose then emit (Log_results k bpr aat) else ret tt) ;;;
  ret k.

(** The body of the [for] loop (lines 187-196) on the pair (k, f). *)
Definition generation (ls_edges ls_edges0 : list wh) (thr : Q) (n : nat)
           (verbose : bool) (st : list wh * Q) : M (list wh * Q) :=
  let k := fst st in
  let f := snd st in
  v <- draw_mask (9 # 10) (1 # 10) (List.length k) ;;
  let kg := mutate k v in
  fg <- lift (anchor_fitness ls_edges thr kg) ;;
  if Qgtb fg f then
    (if verbose then print_results ls_edges0 thr n kg verbose ;;; ret tt
     else ret tt) ;;;
    ret (kg, fg)
  else ret (k, f).

(** [for _ in range(gen)]. *)
Fixpoint evolve (ls_edges ls_edges0 : list wh) (thr : Q) (n : nat)
         (verbose : bool) (gen : nat) (st : list wh * Q) : M (list wh * Q) :=
  match gen with
  | O => ret st
  | S gen' =>
      st' <- generation ls_edges ls_edges0 thr n verbose st ;;
      evolve ls_edges ls_edges0 thr n verbose gen' st'
  end.

(** Lines 129-152: the unfiltered and the filtered edge collections. *)
Definition collect_edges (dataset : dataset_arg) (img_size : Q)
  : M (list wh * list wh) :=
  ds <- match dataset with
        | Dataset_path p => lift (load_dataset ext p)
        | Dataset_loaded d => ret d
        end ;;
  let min_ratios := image_ratios img_size (shapes ds) in
  emit Print_labels ;;;
  ls_edges0 <- lift (np_concatenate (edge_arrays min_ratios (labels ds))) ;;
  emit (Print_edges ls_edges0) ;;;
  let i := List.length (filter any_below_5 ls_edges0) in
  (if (i =? 0)%nat then ret tt
   else emit (Log_small_objects i (List.length ls_edges0))) ;;;
  ret (ls_edges0, filter_edges ls_edges0).

(** Lines 159-168: whitening, k-means, the assertion, un-whitening and the
    sort of [print_results]. *)
Definition kmeans_seed (ls_edges0 ls_edges : list wh) (thr : Q) (n : nat)
  : M (list wh) :=
  emit (Log_running_kmeans n (List.length ls_edges)) ;;;
  let s := np_std0 ext ls_edges in
  kd <- lift (scipy_kmeans ext
                (map (fun b => (fst b / fst s, snd b / snd s)) ls_edges)
                n 30) ;;
  (if (List.length (fst kd) =? n)%nat then ret tt else raise AssertionError) ;;;
  let k := map (fun c => (fst c * fst s, snd c * snd s)) (fst kd) in
  print_results ls_edges0 thr n k false.

Definition kmean_anchors (dataset : dataset_arg) (n : nat) (img_size thr : Q)
           (gen : nat) (verbose : bool) : M (list wh) :=
  emit (Enter_kmean_anchors n gen) ;;;
  let thr := 1 / thr in
  edges <- collect_edges dataset img_size ;;
  let ls_edges0 := fst edges in
  let ls_edges := snd edges in
  k <- kmeans_seed ls_edges0 ls_edges thr n ;;
  f <- lift (anchor_fitness ls_edges thr k) ;;
  kf <- evolve ls_edges ls_edges0 thr n verbose gen (k, f) ;;
  print_results ls_edges0 thr n (fst kf) true.

(** ** [check_anchors] (lines 30-80) *)

(** [k.view_as(m.anchors)]: the rows of [k] regrouped level by level. *)
Fixpoint regroup (shape : list (list wh)) (k : list wh) : list (list wh) :=
  match shape with
  | [] => []
  | level :: rest =>
      firstn (List.length level) k
      :: regroup rest (skipn (List.length level) k)
  end.

Definition view_as (shape : list (list wh)) (k : list wh)
  : exn + list (list wh) :=
  if (List.length k =? List.length (concat shape))%nat
  then inr (regroup shape k)
  else inl RuntimeError.

(** The rows of the value [anchors] holds. *)
Definition rows_of (v : anchors_value) : list wh :=
  match v with
  | Tensor3 a => concat a
  | Array2 k => k
  end.

(** Lines 41-51: the jittered, filtered edge collection of the check. *)
Definition check_edges (dataset : Dataset) (imgsz : Q) : exn + list wh :=
  let min_ratios := image_ratios imgsz (shapes dataset) in
  let scales :=
    map (np_random_uniform ext) (seq 0 (List.length min_ratios)) in
  let ratios :=
    map (fun p => fst p * snd p) (combine min_ratios scales) in
  match np_concatenate (edge_arrays ratios (labels dataset)) with
  | inl e => inl e
  | inr ls_edges => inr (filter_edges ls_edges)
  end.

(** Line 61: [m.anchors.clone() * m.stride.view(-1, 1, 1)]. *)
Definition pixel_anchors (m : Detect) : exn + list (list wh) :=
  broadcast (fun level s => map (fun a => (fst a * s, snd a * s)) level)
            (anchors m) (stride m).

Definition check_anchors (dataset : Dataset) (thr imgsz : Q) : M unit :=
  m <- get_head ;;
  ls_edges <- lift (check_edges dataset imgsz) ;;
  current <- lift (pixel_anchors m) ;;
  ba <- lift (metric ls_edges thr (Array2 (concat current))) ;;
  let bpr := fst ba in
  let aat := snd ba in
  if Qgtb bpr (98 # 100) then emit (Log_good_fit aat bpr)
  else
    emit (Log_poor_fit aat bpr) ;;;
    let na := List.length (concat (anchors m)) in
    new <- try_except
             (k <- kmean_anchors (Dataset_loaded dataset) na imgsz thr
                                 1000 false ;;
              ret (Array2 k))
             (fun e => emit (Log_error e) ;;; ret (Tensor3 current)) ;;
    nb <- lift (metric ls_edges thr new) ;;
    if Qgtb (fst nb) bpr then
      shaped <- lift (view_as (anchors m) (rows_of new)) ;;
      scaled <- lift (broadcast
                        (fun level s => map (fun a => (fst a / s, snd a / s))
                                            level)
                        shaped (stride m)) ;;
      (if (List.length scaled =? List.length (anchors m))%nat
       then set_anchors scaled else raise RuntimeError) ;;;
      check_anchor_order ;;;
      emit Log_saved
    else emit Log_original_better.

End Pipeline.

(** ** Runs of the genetic loop in which no candidate is accepted *)

(** The draws suffice for [gen] generations from the anchors [k] of fitness
    [f], and no generation's candidate has a fitness above [f]. *)
Fixpoint never_improves (ls_edges : list wh) (thr : Q) (k : list wh) (f : Q)
         (gen : nat) (tp : list draw) : bool :=
  match gen with
  | O => true
  | S gen' =>
      match sample_mask (9 # 10) (1 # 10) (List.length k) tp with
      | None => false
      | Some (v, rest) =>
          match anchor_fitness ls_edges thr (mutate k v) with
          | inl _ => false
          | inr fg =>
              negb (Qgtb fg f) && never_improves ls_edges thr k f gen' rest
          end
      end
  end.

(** * Example inputs *)

(** Two levels of two anchors whose corner areas and whose level means order
    differently: the areas are 1, 100 and 4, 4. *)
Definition head_mixed : Detect :=
  mkDetect [[(1, 1); (10, 10)]; [(2, 2); (2, 2)]] [8; 16].

(** Two levels of one anchor with equal areas. *)
Definition head_tie : Detect := mkDetect [[(1, 4)]; [(2, 2)]] [8; 16].

(** Two levels of two anchors with areas 4, 1 and 2, 3: neither level lies
    below the other. *)
Definition head_interleaved : Detect :=
  mkDetect [[(2, 2); (1, 1)]; [(1, 2); (1, 3)]] [8; 16].

(** Two levels of different areas on equal strides. *)
Definition head_equal_strides : Detect :=
  mkDetect [[(1, 1)]; [(2, 2)]] [8; 8].

(** Two levels of two anchors, ascending in area, with descending strides. *)
Definition head_descending : Detect :=
  mkDetect [[(10, 13); (16, 30)]; [(30, 61); (62, 45)]] [16; 8].

Definition world_of (m : Detect) : world := mkWorld m [] [].

(** A stand-in for [poly2rbox] on axis-aligned rectangles given by their four
    corners, counter-clockwise from the lower left. *)
Definition rect_poly2rbox (polys : list (list Q)) : list rbox :=
  map (fun p =>
         match p with
         | [x1; y1; x2; y2; x3; y3; x4; y4] =>
             mkRbox ((x1 + x3) / 2) ((y1 + y3) / 2) (x2 - x1) (y3 - y2) 0
         | _ => mkRbox 0 0 0 0 0
         end) polys.

(** The label of a [w] by [h] rectangle at the origin. *)
Definition rect_label (w h : Q) : label :=
  mkLabel 0 [0; 0; w; 0; w; h; 0; h].

(** Clustering stand-ins: one that answers with the first [n] points, and one
    that raises, as scipy does on data it cannot whiten. *)
Definition kmeans_first_points (obs : list wh) (n iter : nat)
  : exn + (list wh * Q) := inr (firstn n obs, 0).

Definition kmeans_raises (obs : list wh) (n iter : nat)
  : exn + (list wh * Q) := inl ValueError.

Definition collaborators_with
           (km : list wh -> nat -> nat -> exn + (list wh * Q)) : Collaborators :=
  mkCollaborators rect_poly2rbox (fun _ => (1, 1)) km
                  (fun _ => inl (OtherError "no such file"))
                  (fun _ => 1).

(** Three square images with one 200 by 200 box each. *)
Definition dataset_200 : Dataset :=
  mkDataset [(640, 640); (640, 640); (640, 640)]
            [[rect_label 200 200]; [rect_label 200 200]; [rect_label 200 200]].

(** One image with a 1 by 6 box, a 3 by 100 box and a 3 by 4 box. *)
Definition dataset_thin : Dataset :=
  mkDataset [(640, 640)]
            [[rect_label 1 6; rect_label 3 100; rect_label 3 4]].

(** A head whose pixel anchors are 8 by 8 and 32 by 32. *)
Definition head_small : Detect := mkDetect [[(1, 1)]; [(2, 2)]] [8; 16].

(** A head whose pixel anchors are 160 by 160 and 320 by 320. *)
Definition head_large : Detect := mkDetect [[(20, 20)]; [(20, 20)]] [8; 16].

(** A draw that perturbs every entry to 1 + 0.5 * 2 * 0.1 = 1.1, and one
    that leaves the mask at 1. *)
Definition draw_up : draw := mkDraw (fun _ _ => 0) (1 # 2) (fun _ _ => 2).
Definition draw_idle : draw := mkDraw (fun _ _ => 1) (1 # 2) (fun _ _ => 2).

(** Ascending order of areas, and the world right after [kmean_anchors] was
    entered. *)
Definition area_le (a b : wh) : Prop := area a <= area b.

Definition entered (n gen : nat) (w : world) : world :=
  mkWorld (head w) (log w ++ [Enter_kmean_anchors n gen]) (tape w).

(** An anchor with both edges at 2.0 or more, and one with an edge below
    2.0. *)
Definition at_least_2 (a : wh) : Prop := 2 <= fst a /\ 2 <= snd a.

Definition below_2 (a : wh) : Prop := fst a < 2 \/ snd a < 2.

(** ** What a run leaves behind *)

(** The world a run ends in, when it returns or raises. *)
Definition final_world {A} (r : res A) : option world :=
  match r with
  | Ret _ w => Some w
  | Exc _ w => Some w
  | Starved => None
  end.

(** Every run of [m] that ends relates the world it started in to the world it
    ends in by [R]. *)
Definition respects {A} (R : world -> world -> Prop) (m : M A) : Prop :=
  forall w w' : world, final_world (m w) = Some w' -> R w w'.

(** The log only grows and the draws are consumed from the front. *)
Definition log_grows (w w' : world) : Prop :=
  exists added : list event, log w' = log w ++ added.

Definition draws_consumed (w w' : world) : Prop :=
  exists used : list draw, tape w = used ++ tape w'.

(** What [kmean_anchors] leaves alone: the detection head. *)
Definition head_kept (w w' : world) : Prop :=
  head w' = head w /\ log_grows w w' /\ draws_consumed w w'.

(** What [check_anchors] leaves alone: the strides and the number of
    levels. *)
Definition strides_kept (w w' : world) : Prop :=
  stride (head w') = stride (head w)
  /\ List.length (anchors (head w')) = List.length (anchors (head w))
  /\ log_grows w w' /\ draws_consumed w w'.

(** Rows equal as numbers. *)
Definition wh_eq (a b : wh) : Prop := fst a == fst b /\ snd a == snd b.

(** Rows with no negative edge. *)
Definition nonneg (a : wh) : Prop := 0 <= fst a /\ 0 <= snd a.

(** [c * x] on a row. *)
Definition scale_row (c : Q) (a : wh) : wh := (c * fst a, c * snd a).

(** A mask entry within the clip of line 189, and a candidate edge [c] within
    what a mask entry in [0.3, 3.0] and the floor of line 190 allow for the
    edge [x] it comes from. *)
Definition in_clip (r : wh) : Prop :=
  (3 # 10 <= fst r <= 3) /\ (3 # 10 <= snd r <= 3).

Definition edge_bounded (x c : Q) : Prop :=
  2 <= c /\ (3 # 10) * x <= c /\ c <= qmax (3 * x) 2.

Definition anchor_bounded (a c : wh) : Prop :=
  edge_bounded (fst a) (fst c) /\ edge_bounded (snd a) (snd c).

(** A clustering stand-in that answers with [n] centroids of 1 by 1. *)
Definition kmeans_unit_points (obs : list wh) (n iter : nat)
  : exn + (list wh * Q) := inr (repeat (1, 1) n, 0).

(** Two images without labels. *)
Definition dataset_unlabelled : Dataset :=
  mkDataset [(640, 480); (320, 640)] [[]; []].

(** The world in which [kmeans_seed] has logged its line 159. *)
Definition clustering (n points : nat) (w : world) : world :=
  mkWorld (head w) (log w ++ [Log_running_kmeans n points]) (tape w).

(** * Properties *)

(** ** Indexing and signs *)

Lemma last_error_app {A} (l : list A) (x : A) : last_error (l ++ [x]) = Some x.
Proof. unfold last_error. now rewrite rev_app_distr. Qed.

Lemma last_error_some {A} (l : list A) (x : A) :
  last_error l = Some x -> exists l', l = l' ++ [x].
Proof.
  unfold last_error. intros H.
  destruct (rev l) as [|y r] eqn:E; [discriminate|].
  injection H as ->. exists (rev r).
  rewrite <- (rev_involutive l), E. reflexivity.
Qed.

Lemma last_error_rev {A} (l : list A) : last_error (rev l) = hd_error l.
Proof. unfold last_error. now rewrite rev_involutive. Qed.

Lemma hd_error_rev {A} (l : list A) : hd_error (rev l) = last_error l.
Proof. reflexivity. Qed.

Lemma getitem_first {A} (l : list A) : getitem l 0 = hd_error l.
Proof.
  unfold getitem. destruct l as [|x l]; [reflexivity|].
  cbn [List.length hd_error]. cbv zeta. change (0 <? 0)%Z with false.
  cbv iota.
  replace ((0 <=? 0)%Z && (0 <? Z.of_nat (S (List.length l)))%Z)%bool
    with true; [reflexivity|].
  symmetry. apply andb_true_intro. split; [reflexivity|].
  apply Z.ltb_lt. lia.
Qed.

Lemma getitem_last {A} (l : list A) : getitem l (-1) = last_error l.
Proof.
  destruct (rev l) as [|x r] eqn:E.
  - assert (l = []) as -> by (rewrite <- (rev_involutive l), E; reflexivity).
    reflexivity.
  - assert (l = rev r ++ [x]) as ->
      by (rewrite <- (rev_involutive l), E; reflexivity).
    rewrite last_error_app. unfold getitem. cbv zeta.
    change (-1 <? 0)%Z with true. cbv iota.
    rewrite length_app. cbn [List.length].
    replace ((0 <=? -1 + Z.of_nat (List.length (rev r) + 1))%Z
             && (-1 + Z.of_nat (List.length (rev r) + 1)
                 <? Z.of_nat (List.length (rev r) + 1))%Z)%bool with true.
    + replace (Z.to_nat (-1 + Z.of_nat (List.length (rev r) + 1)))
        with (List.length (rev r)) by lia.
      rewrite nth_error_app2 by lia. now rewrite Nat.sub_diag.
    + symmetry. apply andb_true_intro. split.
      * apply Z.leb_le. lia.
      * apply Z.ltb_lt. lia.
Qed.

Lemma sign_sub_pos (x y : Q) : y < x -> sign (x - y) = 1%Z.
Proof.
  unfold sign, Qlt, Qminus, Qplus, Qopp. cbn [Qnum Qden]. intros H.
  apply Z.sgn_pos. rewrite Z.mul_opp_l. lia.
Qed.

Lemma sign_sub_neg (x y : Q) : x < y -> sign (x - y) = (-1)%Z.
Proof.
  unfold sign, Qlt, Qminus, Qplus, Qopp. cbn [Qnum Qden]. intros H.
  apply Z.sgn_neg. rewrite Z.mul_opp_l. lia.
Qed.

Lemma sign_sub_zero (x y : Q) : x == y -> sign (x - y) = 0%Z.
Proof.
  unfold sign, Qeq, Qminus, Qplus, Qopp. cbn [Qnum Qden]. intros H.
  apply Z.sgn_null_iff. rewrite Z.mul_opp_l. lia.
Qed.

Lemma sign_Qeq (x y : Q) : x == y -> sign x = sign y.
Proof.
  unfold sign, Qeq. intros H.
  destruct x as [a b], y as [c d]. cbn [Qnum Qden] in *.
  destruct (Z.sgn_spec a) as [[Ha ->]|[[Ha ->]|[Ha ->]]];
    destruct (Z.sgn_spec c) as [[Hc ->]|[[Hc ->]|[Hc ->]]];
    try reflexivity; exfalso; nia.
Qed.

(** ** [check_anchor_order] *)

Lemma first_area (a : list (list wh)) (p : wh) :
  first_anchor a = Some p -> hd_error (anchor_areas a) = Some (area p).
Proof.
  unfold first_anchor, anchor_areas.
  destruct a as [|l a]; [discriminate|]. destruct l as [|q l]; [discriminate|].
  cbn. now intros [= ->].
Qed.

Lemma last_area (a : list (list wh)) (p : wh) :
  last_anchor a = Some p -> last_error (anchor_areas a) = Some (area p).
Proof.
  unfold last_anchor, anchor_areas. intros H.
  destruct (last_error a) as [l|] eqn:El; [|discriminate].
  apply last_error_some in El as [a' ->].
  apply last_error_some in H as [l' ->].
  rewrite map_app, concat_app. cbn [map concat]. rewrite map_app, app_nil_r.
  cbn [map]. rewrite app_assoc. apply last_error_app.
Qed.

(** What one call does, read off the corner anchors and the end strides. *)
Lemma check_anchor_order_corners (w : world) (p0 pl : wh) (s0 sl : Q) :
  first_anchor (anchors (head w)) = Some p0 ->
  last_anchor (anchors (head w)) = Some pl ->
  hd_error (stride (head w)) = Some s0 ->
  last_error (stride (head w)) = Some sl ->
  check_anchor_order w =
    if (sign (area pl - area p0) =? sign (sl - s0))%Z
    then Ret tt w
    else Ret tt (mkWorld (mkDetect (rev (anchors (head w))) (stride (head w)))
                         (log w ++ [Log_reversing]) (tape w)).
Proof.
  intros Hp0 Hpl Hs0 Hsl.
  unfold check_anchor_order, bind, get_head.
  rewrite getitem_last, (last_area _ _ Hpl).
  rewrite getitem_first, (first_area _ _ Hp0).
  rewrite getitem_last, Hsl, getitem_first, Hs0.
  cbn [index ret].
  destruct (sign (area pl - area p0) =? sign (sl - s0))%Z; reflexivity.
Qed.

Lemma hd_error_map {A B} (f : A -> B) (l : list A) :
  hd_error (map f l) = option_map f (hd_error l).
Proof. now destruct l. Qed.

Lemma last_error_map {A B} (f : A -> B) (l : list A) :
  last_error (map f l) = option_map f (last_error l).
Proof. unfold last_error. rewrite <- map_rev. apply hd_error_map. Qed.

Lemma mean_singleton (x : Q) : mean [x] == x.
Proof. unfold mean. cbn. field. Qed.

Lemma single_anchor_levels (a : list (list wh)) :
  Forall (fun level => List.length level = 1%nat) a ->
  anchor_areas a = map area (concat a) /\
  map spec_level_mean_area a = map (fun p => mean [area p]) (concat a).
Proof.
  induction 1 as [|l a Hl _ [IH1 IH2]]; [split; reflexivity|].
  destruct l as [|p [|q l]]; try discriminate.
  unfold anchor_areas in *. cbn. rewrite IH1, IH2. split; reflexivity.
Qed.

(** C4 (as the code has it).  [check_anchor_order] takes the area of every
    anchor, compares the sign of (area of the last anchor of the last level
    minus area of the first anchor of the first level) with the sign of
    (stride[last] - stride[first]), and reverses the order of the levels,
    each level kept as it is, exactly when the two signs differ; when they
    agree nothing changes.  When every level holds one anchor these areas are
    the per-level mean areas of the specification. *)
Theorem check_anchor_order_reverses_on_sign_mismatch :
  (forall (w : world) (p0 pl : wh) (s0 sl : Q),
      first_anchor (anchors (head w)) = Some p0 ->
      last_anchor (anchors (head w)) = Some pl ->
      hd_error (stride (head w)) = Some s0 ->
      last_error (stride (head w)) = Some sl ->
      check_anchor_order w =
        if (sign (area pl - area p0) =? sign (sl - s0))%Z
        then Ret tt w
        else Ret tt (mkWorld (mkDetect (rev (anchors (head w)))
                                       (stride (head w)))
                             (log w ++ [Log_reversing]) (tape w)))
  /\
  (forall w : world,
      Forall (fun level => List.length level = 1%nat) (anchors (head w)) ->
      check_anchor_order w = spec_check_anchor_order w).
Proof.
  split; [exact check_anchor_order_corners|].
  intros w Hone. destruct (single_anchor_levels _ Hone) as [Hc Hs].
  unfold check_anchor_order, spec_check_anchor_order, bind, get_head.
  rewrite Hc, Hs, !getitem_last, !getitem_first.
  rewrite !last_error_map, !hd_error_map.
  destruct (last_error (concat (anchors (head w)))) as [pl|]; [|reflexivity].
  destruct (hd_error (concat (anchors (head w)))) as [p0|]; [|reflexivity].
  cbn [option_map index ret].
  destruct (last_error (stride (head w))) as [sl|]; [|reflexivity].
  destruct (hd_error (stride (head w))) as [s0|]; [|reflexivity].
  cbn [index ret].
  assert (E : sign (area pl - area p0)
              = sign (mean [area pl] - mean [area p0]))
    by (apply sign_Qeq; now rewrite !mean_singleton).
  now rewrite E.
Qed.

Lemma check_anchor_order_reverses_on_sign_mismatch_witness :
  check_anchor_order (world_of head_descending)
  = Ret tt (mkWorld (mkDetect [[(30, 61); (62, 45)]; [(10, 13); (16, 30)]]
                              [16; 8])
                    [Log_reversing] [])
  /\ check_anchor_order (world_of head_tie)
     = spec_check_anchor_order (world_of head_tie).
Proof.
  split.
  - exact (proj1 check_anchor_order_reverses_on_sign_mismatch
             (world_of head_descending) (10, 13) (62, 45) 16 8
             eq_refl eq_refl eq_refl eq_refl).
  - apply (proj2 check_anchor_order_reverses_on_sign_mismatch).
    repeat constructor.
Defined.

(** C4 as stated fails: on [head_mixed] the level means are 50.5 and 4, so the
    specification's rule reverses the levels, while the code compares the
    corner areas 1 and 4 and leaves them. *)
Lemma check_anchor_order_not_level_means :
  check_anchor_order (world_of head_mixed) = Ret tt (world_of head_mixed)
  /\ spec_check_anchor_order (world_of head_mixed)
     = Ret tt (mkWorld (mkDetect [[(2, 2); (2, 2)]; [(1, 1); (10, 10)]] [8; 16])
                       [Log_reversing] [])
  /\ check_anchor_order (world_of head_mixed)
     <> spec_check_anchor_order (world_of head_mixed).
Proof.
  split; [reflexivity|]. split; [reflexivity|]. discriminate.
Qed.

Lemma hd_error_in {A} (l : list A) (x : A) : hd_error l = Some x -> In x l.
Proof. destruct l; [discriminate|]. intros [= ->]. now left. Qed.

Lemma last_error_in {A} (l : list A) (x : A) : last_error l = Some x -> In x l.
Proof.
  intros H. apply last_error_some in H as [l' ->].
  apply in_or_app. right. now left.
Qed.

Lemma hd_error_nonempty {A} (l : list A) :
  l <> [] -> exists x, hd_error l = Some x.
Proof. destruct l as [|x l]; [congruence|]. now exists x. Qed.

Lemma last_error_nonempty {A} (l : list A) :
  l <> [] -> exists x, last_error l = Some x.
Proof.
  intros H. unfold last_error. apply hd_error_nonempty.
  intros E. apply H. rewrite <- (rev_involutive l), E. reflexivity.
Qed.

(** C5 (as the code has it).  When the first and the last stride differ and
    the first and the last level are strictly separated by area (every anchor
    of one smaller than every anchor of the other), a second application of
    [check_anchor_order] changes nothing: it neither reorders nor logs. *)
Theorem check_anchor_order_stable_when_separated
        (w : world) (first_level last_level : list wh) (s0 sl : Q) :
  hd_error (anchors (head w)) = Some first_level ->
  last_error (anchors (head w)) = Some last_level ->
  first_level <> [] ->
  last_level <> [] ->
  hd_error (stride (head w)) = Some s0 ->
  last_error (stride (head w)) = Some sl ->
  ~ sl == s0 ->
  ((forall p q, In p first_level -> In q last_level -> area p < area q) \/
   (forall p q, In p first_level -> In q last_level -> area q < area p)) ->
  exists w1 : world,
    check_anchor_order w = Ret tt w1 /\ check_anchor_order w1 = Ret tt w1.
Proof.
  intros Hf Hl Nf Nl Hs0 Hsl Hds Hsep.
  destruct (hd_error_nonempty _ Nf) as [p0 Hp0].
  destruct (last_error_nonempty _ Nf) as [p1 Hp1].
  destruct (hd_error_nonempty _ Nl) as [q0 Hq0].
  destruct (last_error_nonempty _ Nl) as [q1 Hq1].
  assert (Hfirst : first_anchor (anchors (head w)) = Some p0)
    by (unfold first_anchor; now rewrite Hf).
  assert (Hlast : last_anchor (anchors (head w)) = Some q1)
    by (unfold last_anchor; now rewrite Hl).
  pose (w' := mkWorld (mkDetect (rev (anchors (head w))) (stride (head w)))
                      (log w ++ [Log_reversing]) (tape w)).
  assert (Hfirst' : first_anchor (anchors (head w')) = Some q0)
    by (unfold first_anchor; cbn; now rewrite hd_error_rev, Hl).
  assert (Hlast' : last_anchor (anchors (head w')) = Some p1)
    by (unfold last_anchor; cbn; now rewrite last_error_rev, Hf).
  pose proof (check_anchor_order_corners w _ _ _ _ Hfirst Hlast Hs0 Hsl) as E.
  pose proof (check_anchor_order_corners w' _ _ _ _ Hfirst' Hlast' Hs0 Hsl)
    as E'.
  apply hd_error_in in Hp0, Hq0. apply last_error_in in Hp1, Hq1.
  assert (Hs : sign (sl - s0) = 1%Z \/ sign (sl - s0) = (-1)%Z).
  { destruct (Q_dec sl s0) as [[H|H]|H].
    - right. now apply sign_sub_neg.
    - left. now apply sign_sub_pos.
    - contradiction. }
  destruct Hsep as [Hsep|Hsep].
  - rewrite (sign_sub_pos _ _ (Hsep _ _ Hp0 Hq1)) in E.
    rewrite (sign_sub_neg _ _ (Hsep _ _ Hp1 Hq0)) in E'.
    destruct Hs as [Hs|Hs]; rewrite Hs in E, E';
      simpl (_ =? _)%Z in E, E'; cbv iota in E, E'.
    + exists w. rewrite E. split; reflexivity.
    + exists w'. split; assumption.
  - rewrite (sign_sub_neg _ _ (Hsep _ _ Hp0 Hq1)) in E.
    rewrite (sign_sub_pos _ _ (Hsep _ _ Hp1 Hq0)) in E'.
    destruct Hs as [Hs|Hs]; rewrite Hs in E, E';
      simpl (_ =? _)%Z in E, E'; cbv iota in E, E'.
    + exists w'. split; assumption.
    + exists w. rewrite E. split; reflexivity.
Qed.

Lemma check_anchor_order_stable_when_separated_witness :
  exists w1 : world,
    check_anchor_order (world_of head_descending) = Ret tt w1
    /\ check_anchor_order w1 = Ret tt w1.
Proof.
  apply (check_anchor_order_stable_when_separated
           (world_of head_descending)
           [(10, 13); (16, 30)] [(30, 61); (62, 45)] 16 8);
    try reflexivity; try discriminate.
  left. intros p q [<-|[<-|[]]] [<-|[<-|[]]]; reflexivity.
Defined.

(** C5 as stated fails: on [head_tie] the two areas are equal, the sign of
    their difference is 0 and never the sign of the stride difference, so
    every application reverses the levels again.  The same happens on
    [head_interleaved], where the corner areas compared before and after the
    reversal are not those of the same anchors, and on [head_equal_strides],
    where the stride difference has sign 0. *)
Lemma check_anchor_order_reorders_twice :
  (exists w1 w2 : world,
      check_anchor_order (world_of head_tie) = Ret tt w1
      /\ check_anchor_order w1 = Ret tt w2
      /\ anchors (head w1) = [[(2, 2)]; [(1, 4)]]
      /\ anchors (head w2) = [[(1, 4)]; [(2, 2)]]
      /\ log w2 = [Log_reversing; Log_reversing])
  /\ (exists w1 w2 : world,
        check_anchor_order (world_of head_interleaved) = Ret tt w1
        /\ check_anchor_order w1 = Ret tt w2
        /\ anchors (head w1) = [[(1, 2); (1, 3)]; [(2, 2); (1, 1)]]
        /\ anchors (head w2) = [[(2, 2); (1, 1)]; [(1, 2); (1, 3)]]
        /\ log w2 = [Log_reversing; Log_reversing])
  /\ (exists w1 w2 : world,
        check_anchor_order (world_of head_equal_strides) = Ret tt w1
        /\ check_anchor_order w1 = Ret tt w2
        /\ anchors (head w1) = [[(2, 2)]; [(1, 1)]]
        /\ anchors (head w2) = [[(1, 1)]; [(2, 2)]]
        /\ log w2 = [Log_reversing; Log_reversing]).
Proof.
  split; [|split].
  - exists (mkWorld (mkDetect [[(2, 2)]; [(1, 4)]] [8; 16])
                    [Log_reversing] []).
    exists (mkWorld (mkDetect [[(1, 4)]; [(2, 2)]] [8; 16])
                    [Log_reversing; Log_reversing] []).
    repeat split.
  - exists (mkWorld (mkDetect [[(1, 2); (1, 3)]; [(2, 2); (1, 1)]] [8; 16])
                    [Log_reversing] []).
    exists (mkWorld (mkDetect [[(2, 2); (1, 1)]; [(1, 2); (1, 3)]] [8; 16])
                    [Log_reversing; Log_reversing] []).
    repeat split.
  - exists (mkWorld (mkDetect [[(2, 2)]; [(1, 1)]] [8; 8])
                    [Log_reversing] []).
    exists (mkWorld (mkDetect [[(1, 1)]; [(2, 2)]] [8; 8])
                    [Log_reversing; Log_reversing] []).
    repeat split.
Qed.

(** ** The ratio metric *)

Lemma Qgtb_true (x y : Q) : Qgtb x y = true <-> y < x.
Proof.
  unfold Qgtb. rewrite negb_true_iff. split.
  - intros H. apply Qnot_le_lt. intros L.
    apply Qle_bool_iff in L. congruence.
  - intros H. destruct (Qle_bool x y) eqn:E; [|reflexivity].
    apply Qle_bool_iff in E. exfalso. exact (Qlt_not_le _ _ H E).
Qed.

Lemma Qgtb_false (x y : Q) : Qgtb x y = false <-> x <= y.
Proof.
  unfold Qgtb. rewrite negb_false_iff. apply Qle_bool_iff.
Qed.

Lemma qmin_cases (x y : Q) :
  (x <= y /\ qmin x y = x) \/ (y < x /\ qmin x y = y).
Proof.
  unfold qmin. destruct (Qle_bool x y) eqn:E.
  - left. split; [now apply Qle_bool_iff|reflexivity].
  - right. split; [|reflexivity]. apply Qgtb_true. unfold Qgtb. now rewrite E.
Qed.

Lemma qmax_cases (x y : Q) :
  (x <= y /\ qmax x y = y) \/ (y < x /\ qmax x y = x).
Proof.
  unfold qmax. destruct (Qle_bool x y) eqn:E.
  - left. split; [now apply Qle_bool_iff|reflexivity].
  - right. split; [|reflexivity]. apply Qgtb_true. unfold Qgtb. now rewrite E.
Qed.

Lemma qmax_ge_l (x y : Q) : x <= qmax x y.
Proof.
  destruct (qmax_cases x y) as [[H ->]|[H ->]]; [assumption|apply Qle_refl].
Qed.

Lemma qmax_ge_r (x y : Q) : y <= qmax x y.
Proof.
  destruct (qmax_cases x y) as [[H ->]|[H ->]];
    [apply Qle_refl|now apply Qlt_le_weak].
Qed.

Lemma fold_qmax_ge (xs : list Q) (acc : Q) :
  acc <= fold_left qmax xs acc
  /\ forall x, In x xs -> x <= fold_left qmax xs acc.
Proof.
  revert acc. induction xs as [|y xs IH]; intros acc; cbn.
  - split; [apply Qle_refl|intros x []].
  - destruct (IH (qmax acc y)) as [Hacc Hin]. split.
    + eapply Qle_trans; [apply qmax_ge_l|exact Hacc].
    + intros x [<-|Hx]; [|now apply Hin].
      eapply Qle_trans; [apply qmax_ge_r|exact Hacc].
Qed.

Lemma max_list_ge (l : list Q) (x : Q) : In x l -> x <= max_list l.
Proof.
  destruct l as [|y l]; [intros []|]. cbn [max_list].
  destruct (fold_qmax_ge l y) as [Hy Hin].
  intros [<-|Hx]; [assumption|now apply Hin].
Qed.

Lemma above_range (t x : Q) : 0 <= above t x <= 1.
Proof. unfold above, indicator. destruct (Qgtb x t); split; discriminate. Qed.

Lemma Qsum_range (l : list Q) :
  (forall x, In x l -> 0 <= x <= 1) ->
  0 <= Qsum l <= inject_Z (Z.of_nat (List.length l)).
Proof.
  induction l as [|x l IH]; intros H.
  - cbn. split; apply Qle_refl.
  - destruct (IH (fun y Hy => H y (or_intror Hy))) as [IH0 IH1].
    destruct (H x (or_introl eq_refl)) as [H0 H1].
    cbn [Qsum fold_right List.length]. fold (Qsum l).
    rewrite Nat2Z.inj_succ, <- Z.add_1_r, inject_Z_plus.
    change (inject_Z 1) with 1. split; lra.
Qed.

Lemma Qsum_nonneg (l : list Q) : (forall x, In x l -> 0 <= x) -> 0 <= Qsum l.
Proof.
  induction l as [|x l IH]; intros H; cbn; [apply Qle_refl|].
  fold (Qsum l).
  pose proof (H x (or_introl eq_refl)).
  pose proof (IH (fun y Hy => H y (or_intror Hy))). lra.
Qed.

Lemma length_pos_Q {A} (l : list A) :
  l <> [] -> 0 < inject_Z (Z.of_nat (List.length l)).
Proof.
  intros H. destruct l; [congruence|].
  change 0 with (inject_Z 0). rewrite <- Zlt_Qlt. cbn [List.length]. lia.
Qed.

Lemma mean_range (l : list Q) :
  l <> [] -> (forall x, In x l -> 0 <= x <= 1) -> 0 <= mean l <= 1.
Proof.
  intros Hne H. unfold mean.
  pose proof (length_pos_Q l Hne) as Hn.
  destruct (Qsum_range l H) as [H0 H1]. split.
  - apply Qle_shift_div_l; [assumption|]. lra.
  - apply Qle_shift_div_r; [assumption|]. lra.
Qed.

Lemma mean_nonneg (l : list Q) : (forall x, In x l -> 0 <= x) -> 0 <= mean l.
Proof.
  intros H. unfold mean. pose proof (Qsum_nonneg l H) as H0.
  destruct l as [|x l].
  - cbn. discriminate.
  - apply Qle_shift_div_l; [apply length_pos_Q; discriminate|]. lra.
Qed.

Lemma Qsum_ones (l : list Q) :
  (forall x, In x l -> x = 1) ->
  Qsum l == inject_Z (Z.of_nat (List.length l)).
Proof.
  induction l as [|x l IH]; intros H; [reflexivity|].
  cbn [Qsum fold_right List.length]. fold (Qsum l).
  rewrite (H x (or_introl eq_refl)), (IH (fun y Hy => H y (or_intror Hy))).
  rewrite Nat2Z.inj_succ, <- Z.add_1_r, inject_Z_plus.
  change (inject_Z 1) with 1. ring.
Qed.

Lemma mean_ones (l : list Q) :
  l <> [] -> (forall x, In x l -> x = 1) -> mean l == 1.
Proof.
  intros Hne H. unfold mean. rewrite (Qsum_ones l H).
  field. intros E. pose proof (length_pos_Q l Hne) as Hn. lra.
Qed.

(** A box and an anchor of equal, positive edges fit with score 1. *)
Lemma fit_of_equal (b a : wh) :
  0 < fst a -> 0 < snd a -> fst b == fst a -> snd b == snd a ->
  min_cols (min_inv (ratio_row b a)) == 1.
Proof.
  intros Hw Hh Ew Eh.
  assert (R1 : fst b / fst a == 1) by (rewrite Ew; field; lra).
  assert (R2 : snd b / snd a == 1) by (rewrite Eh; field; lra).
  assert (I1 : 1 / (fst b / fst a) == 1) by (rewrite R1; reflexivity).
  assert (I2 : 1 / (snd b / snd a) == 1) by (rewrite R2; reflexivity).
  unfold min_cols, min_inv, ratio_row. cbn [fst snd].
  destruct (qmin_cases (fst b / fst a) (1 / (fst b / fst a)))
    as [[_ ->]|[_ ->]];
    destruct (qmin_cases (snd b / snd a) (1 / (snd b / snd a)))
      as [[_ ->]|[_ ->]];
    match goal with
    | |- qmin ?x ?y == 1 => destruct (qmin_cases x y) as [[_ ->]|[_ ->]]
    end; assumption.
Qed.

Lemma metric_array_returns (boxes k : list wh) (thr : Q) :
  k <> [] ->
  metric_array boxes thr k =
    inr (mean (map (above (1 / thr)) (map max_list (ratio_metric boxes k))),
         mean (map (fun row => Qsum (map (above (1 / thr)) row))
                   (ratio_metric boxes k))).
Proof. destruct k; [congruence|reflexivity]. Qed.

(** C3 (as the code has it).  For every non-empty box collection and every
    non-empty anchor array the evaluation returns a best possible recall in
    [0,1] and a non-negative anchors-above-threshold; and when the anchors
    have positive edges and every box equals some anchor, the best possible
    recall is 1 for every threshold ratio strictly above 1. *)
Theorem metric_report_bounds (boxes k : list wh) (thr : Q) :
  boxes <> [] ->
  k <> [] ->
  exists bpr aat : Q,
    metric boxes thr (Array2 k) = inr (bpr, aat)
    /\ 0 <= bpr <= 1
    /\ 0 <= aat
    /\ (1 < thr ->
        (forall a, In a k -> 0 < fst a /\ 0 < snd a) ->
        (forall b, In b boxes ->
                   exists a, In a k /\ fst b == fst a /\ snd b == snd a) ->
        bpr == 1).
Proof.
  intros Hb Hk. cbn [metric]. rewrite (metric_array_returns _ _ _ Hk).
  do 2 eexists. split; [reflexivity|].
  assert (Hne : map (above (1 / thr)) (map max_list (ratio_metric boxes k))
                <> []).
  { unfold ratio_metric. destruct boxes; [congruence|discriminate]. }
  repeat split.
  - apply mean_range; [assumption|].
    intros x Hx. apply in_map_iff in Hx as [y [<- _]]. apply above_range.
  - apply mean_range; [assumption|].
    intros x Hx. apply in_map_iff in Hx as [y [<- _]]. apply above_range.
  - apply mean_nonneg. intros x Hx. apply in_map_iff in Hx as [row [<- _]].
    apply Qsum_nonneg. intros y Hy. apply in_map_iff in Hy as [z [<- _]].
    apply above_range.
  - intros Hthr Hpos Heq. apply mean_ones; [assumption|].
    intros x Hx. apply in_map_iff in Hx as [best [<- Hbest]].
    apply in_map_iff in Hbest as [row [<- Hrow]].
    unfold ratio_metric in Hrow. apply in_map_iff in Hrow as [b [<- Hin]].
    destruct (Heq b Hin) as [a [Ha [Ew Eh]]].
    destruct (Hpos a Ha) as [Hw Hh].
    pose proof (fit_of_equal b a Hw Hh Ew Eh) as Hfit.
    assert (Hmax : min_cols (min_inv (ratio_row b a))
                   <= max_list (map (fun a0 => min_cols (min_inv (ratio_row b a0)))
                                    k)).
    { apply max_list_ge. apply in_map_iff. now exists a. }
    unfold above.
    replace (Qgtb _ _) with true; [reflexivity|].
    symmetry. apply Qgtb_true.
    assert (1 / thr < 1).
    { apply Qlt_shift_div_r; lra. }
    lra.
Qed.

Lemma metric_report_bounds_witness :
  exists bpr aat : Q,
    metric [(50, 100); (20, 30)] 4 (Array2 [(20, 30); (50, 100)])
    = inr (bpr, aat)
    /\ 0 <= bpr <= 1
    /\ 0 <= aat
    /\ bpr == 1.
Proof.
  destruct (metric_report_bounds
              [(50, 100); (20, 30)] [(20, 30); (50, 100)] 4)
    as [bpr [aat [E [Hb [Ha H1]]]]]; try discriminate.
  exists bpr, aat. repeat split; try tauto.
  apply H1.
  - reflexivity.
  - intros a [<-|[<-|[]]]; split; reflexivity.
  - intros b [<-|[<-|[]]].
    + exists (50, 100). split; [right; now left|split; reflexivity].
    + exists (20, 30). split; [now left|split; reflexivity].
Defined.

(** C3 as stated fails in two places.  At the threshold ratio 1 a box equal
    to the only anchor has fit score 1, which is not above 1/1: the recall
    is 0.  And on an empty anchor array the evaluation raises instead of
    returning a report. *)
Lemma metric_recall_zero_at_ratio_one :
  (exists bpr aat : Q,
      metric [(10, 10)] 1 (Array2 [(10, 10)]) = inr (bpr, aat) /\ bpr == 0)
  /\ metric [(10, 10)] 4 (Array2 []) = inl IndexError.
Proof.
  split; [|reflexivity]. do 2 eexists. split; reflexivity.
Qed.

(** ** [anchor_fitness] against the fitness of the specification *)

Ltac name_minmax :=
  repeat match goal with
         | |- context [qmin ?x ?y] =>
             let m := fresh "m" in
             pose proof (qmin_cases x y); set (m := qmin x y) in *; clearbody m
         | |- context [qmax ?x ?y] =>
             let m := fresh "m" in
             pose proof (qmax_cases x y); set (m := qmax x y) in *; clearbody m
         | _ : context [qmin ?x ?y] |- _ =>
             let m := fresh "m" in
             pose proof (qmin_cases x y); set (m := qmin x y) in *; clearbody m
         | _ : context [qmax ?x ?y] |- _ =>
             let m := fresh "m" in
             pose proof (qmax_cases x y); set (m := qmax x y) in *; clearbody m
         end.

Ltac split_minmax :=
  name_minmax;
  repeat match goal with
         | H : _ \/ _ |- _ => destruct H as [[? ?]|[? ?]]
         end;
  subst.

Lemma qmin_proper (x x' y y' : Q) :
  x == x' -> y == y' -> qmin x y == qmin x' y'.
Proof. intros Hx Hy. split_minmax; lra. Qed.

Lemma qmax_proper (x x' y y' : Q) :
  x == x' -> y == y' -> qmax x y == qmax x' y'.
Proof. intros Hx Hy. split_minmax; lra. Qed.

Lemma qmax_assoc (a b c : Q) : qmax (qmax a b) c == qmax a (qmax b c).
Proof. split_minmax; lra. Qed.

Lemma qmin_Qmin (x y : Q) : qmin x y == Qmin x y.
Proof.
  destruct (Q.min_spec x y) as [[H ->]|[H ->]]; split_minmax; lra.
Qed.

Lemma qmax_Qmax (x y : Q) : qmax x y == Qmax x y.
Proof.
  destruct (Q.max_spec x y) as [[H ->]|[H ->]]; split_minmax; lra.
Qed.

Lemma Qmin_proper (x x' y y' : Q) :
  x == x' -> y == y' -> Qmin x y == Qmin x' y'.
Proof.
  intros Hx Hy. rewrite <- !qmin_Qmin. now apply qmin_proper.
Qed.

Lemma Qmax_proper (x x' y y' : Q) :
  x == x' -> y == y' -> Qmax x y == Qmax x' y'.
Proof.
  intros Hx Hy. rewrite <- !qmax_Qmax. now apply qmax_proper.
Qed.

Lemma inv_of_ratio (x y : Q) : 1 / (x / y) == y / x.
Proof.
  unfold Qdiv. rewrite Qinv_mult_distr, Qinv_involutive. ring.
Qed.

Lemma fit_score_agrees (b a : wh) :
  min_cols (min_inv (ratio_row b a)) == spec_fit_score b a.
Proof.
  unfold min_cols, min_inv, ratio_row, spec_fit_score. cbn [fst snd].
  rewrite qmin_Qmin.
  apply Qmin_proper; rewrite qmin_Qmin;
    (apply Qmin_proper; [reflexivity|apply inv_of_ratio]).
Qed.

Lemma fold_qmax_proper (xs : list Q) (a a' : Q) :
  a == a' -> fold_left qmax xs a == fold_left qmax xs a'.
Proof.
  revert a a'. induction xs as [|x xs IH]; intros a a' H; cbn; [assumption|].
  apply IH. now apply qmax_proper.
Qed.

Lemma fold_qmax_shift (xs : list Q) (a b : Q) :
  fold_left qmax xs (qmax a b) == qmax a (fold_left qmax xs b).
Proof.
  revert a b. induction xs as [|x xs IH]; intros a b; cbn; [reflexivity|].
  rewrite (fold_qmax_proper xs _ _ (qmax_assoc a b x)). apply IH.
Qed.

Lemma best_fit_agrees (b a0 : wh) (rest : list wh) :
  max_list (map (fun a => min_cols (min_inv (ratio_row b a))) (a0 :: rest))
  == spec_best_fit b a0 rest.
Proof.
  cbn [map max_list]. revert a0.
  induction rest as [|a1 rest IH]; intros a0; cbn [map fold_left spec_best_fit].
  - apply fit_score_agrees.
  - rewrite fold_qmax_shift, qmax_Qmax.
    apply Qmax_proper; [apply fit_score_agrees|apply IH].
Qed.

Lemma contribution_agrees (t best s : Q) :
  best == s -> best * above t best == if Qlt_le_dec t s then s else 0.
Proof.
  intros E. unfold above, indicator.
  destruct (Qlt_le_dec t s) as [H|H].
  - replace (Qgtb best t) with true; [lra|].
    symmetry. apply Qgtb_true. lra.
  - replace (Qgtb best t) with false; [lra|].
    symmetry. apply Qgtb_false. lra.
Qed.

Lemma Qsum_map_ext {A} (f g : A -> Q) (l : list A) :
  (forall x, In x l -> f x == g x) -> Qsum (map f l) == Qsum (map g l).
Proof.
  induction l as [|x l IH]; intros H; [reflexivity|].
  cbn [map Qsum fold_right]. fold (Qsum (map f l)) (Qsum (map g l)).
  rewrite (H x (or_introl eq_refl)), (IH (fun y Hy => H y (or_intror Hy))).
  reflexivity.
Qed.

Lemma Qsum_zeros (l : list Q) : (forall x, In x l -> x == 0) -> Qsum l == 0.
Proof.
  induction l as [|x l IH]; intros H; [reflexivity|].
  cbn [Qsum fold_right]. fold (Qsum l).
  rewrite (H x (or_introl eq_refl)), (IH (fun y Hy => H y (or_intror Hy))).
  reflexivity.
Qed.

(** C7.  The fitness of the genetic refinement is the mean over the filtered
    boxes of best fit times indicator(best fit > threshold), the best fit of a
    box being its largest ratio fit score over the anchors and the threshold
    the inverted ratio (1/4.0 = 0.25 by default); when no box has a best fit
    above the threshold every box contributes zero. *)
Theorem anchor_fitness_is_thresholded_mean
        (ls_edges : list wh) (thr : Q) (a0 : wh) (rest : list wh) :
  exists f : Q,
    anchor_fitness ls_edges (1 / thr) (a0 :: rest) = inr f
    /\ f == spec_fitness ls_edges (1 / thr) a0 rest
    /\ ((forall b, In b ls_edges -> spec_best_fit b a0 rest <= 1 / thr) ->
        f == 0)
    /\ 1 / 4 == 25 # 100.
Proof.
  eexists. split; [reflexivity|].
  assert (E : Qsum (map (fun b => b * above (1 / thr) b)
                        (map max_list (ratio_metric ls_edges (a0 :: rest))))
              == Qsum (map (spec_contribution (1 / thr) a0 rest) ls_edges)).
  { unfold ratio_metric. rewrite !map_map. apply Qsum_map_ext.
    intros b _. unfold spec_contribution.
    apply contribution_agrees, best_fit_agrees. }
  split; [|split; [|reflexivity]].
  - unfold mean, spec_fitness. rewrite E.
    unfold ratio_metric. rewrite !length_map. reflexivity.
  - intros Hlow. unfold mean. rewrite E.
    rewrite Qsum_zeros.
    + unfold Qdiv. ring.
    + intros x Hx. apply in_map_iff in Hx as [b [<- Hb]].
      unfold spec_contribution.
      destruct (Qlt_le_dec (1 / thr) (spec_best_fit b a0 rest)) as [H|H];
        [|reflexivity].
      specialize (Hlow b Hb). lra.
Qed.

Lemma anchor_fitness_is_thresholded_mean_witness :
  exists f : Q,
    anchor_fitness [(100, 100)] (1 / 4) [(10, 10); (20, 20)] = inr f
    /\ f == spec_fitness [(100, 100)] (1 / 4) (10, 10) [(20, 20)]
    /\ f == 0.
Proof.
  destruct (anchor_fitness_is_thresholded_mean
              [(100, 100)] 4 (10, 10) [(20, 20)]) as [f [E [Hs [H0 _]]]].
  exists f. split; [exact E|]. split; [exact Hs|].
  apply H0. intros b [<-|[]]. vm_compute. discriminate.
Defined.

(** ** The size filter *)

Lemma any_at_least_5_true (b : wh) :
  any_at_least_5 b = true <-> 5 <= fst b \/ 5 <= snd b.
Proof.
  unfold any_at_least_5. rewrite orb_true_iff, !Qle_bool_iff. reflexivity.
Qed.

Lemma collect_edges_filtered (ext : Collaborators) (dataset : dataset_arg)
      (img_size : Q) (w w' : world) (ls_edges0 ls_edges : list wh) :
  collect_edges ext dataset img_size w = Ret (ls_edges0, ls_edges) w' ->
  ls_edges = filter_edges ls_edges0.
Proof.
  unfold collect_edges, bind, emit, lift, ret, raise.
  destruct dataset as [p|d].
  - destruct (load_dataset ext p) as [e|ds]; [discriminate|].
    destruct (np_concatenate _) as [e|l]; [discriminate|].
    destruct (_ =? 0)%nat; intros [= <- <- _]; reflexivity.
  - destruct (np_concatenate _) as [e|l]; [discriminate|].
    destruct (_ =? 0)%nat; intros [= <- <- _]; reflexivity.
Qed.

Lemma check_edges_filtered (ext : Collaborators) (dataset : Dataset)
      (imgsz : Q) (ls_edges : list wh) :
  check_edges ext dataset imgsz = inr ls_edges ->
  forall b, In b ls_edges -> 5 <= fst b \/ 5 <= snd b.
Proof.
  unfold check_edges. cbv zeta.
  destruct (np_concatenate _) as [e|l]; [discriminate|].
  intros [= <-] b Hb. unfold filter_edges in Hb.
  apply filter_In in Hb as [_ Hb]. now apply any_at_least_5_true.
Qed.

(** C2 (as the code has it).  The filtered collection used for fitting holds
    exactly the boxes of the unfiltered collection that have at least one edge
    of 5.0 px or more, in their order: a box is excluded when its width and
    its height are both below 5.0, and every box stays in the unfiltered
    collection, which is the one the reports are computed on. *)
Theorem filtered_edges_drop_boxes_small_in_both_edges
        (ext : Collaborators) (dataset : dataset_arg) (img_size : Q)
        (w w' : world) (ls_edges0 ls_edges : list wh) :
  collect_edges ext dataset img_size w = Ret (ls_edges0, ls_edges) w' ->
  ls_edges = filter_edges ls_edges0
  /\ (forall b, In b ls_edges <->
                In b ls_edges0 /\ (5 <= fst b \/ 5 <= snd b))
  /\ (forall b, In b ls_edges0 -> fst b < 5 -> snd b < 5 -> ~ In b ls_edges).
Proof.
  intros H. apply collect_edges_filtered in H. subst ls_edges.
  split; [reflexivity|]. split.
  - intros b. unfold filter_edges. rewrite filter_In, any_at_least_5_true.
    reflexivity.
  - intros b _ Hw Hh Hin. unfold filter_edges in Hin.
    apply filter_In in Hin as [_ Hb]. apply any_at_least_5_true in Hb.
    destruct Hb; lra.
Qed.

Lemma filtered_edges_drop_boxes_small_in_both_edges_witness :
  exists (ls_edges0 ls_edges : list wh) (w' : world),
    collect_edges (collaborators_with kmeans_first_points)
                  (Dataset_loaded dataset_thin) 640 (world_of head_small)
    = Ret (ls_edges0, ls_edges) w'
    /\ List.length ls_edges0 = 3%nat
    /\ List.length ls_edges = 2%nat
    /\ (forall b, In b ls_edges <->
                  In b ls_edges0 /\ (5 <= fst b \/ 5 <= snd b))
    /\ (forall b, In b ls_edges0 -> fst b < 5 -> snd b < 5 ->
                  ~ In b ls_edges).
Proof.
  edestruct (filtered_edges_drop_boxes_small_in_both_edges
               (collaborators_with kmeans_first_points)
               (Dataset_loaded dataset_thin) 640 (world_of head_small))
    as [Hf [Hin Hout]].
  - vm_compute. reflexivity.
  - do 3 eexists. split; [vm_compute; reflexivity|].
    split; [reflexivity|]. split; [reflexivity|].
    split; [exact Hin|exact Hout].
Defined.

(** C2 as stated fails: a box of width 3 and height 100 has a width below
    5.0 and is kept by the filter of lines 51 and 152. *)
Lemma filter_edges_keeps_thin_box :
  filter_edges [(3, 100); (3, 4)] = [(3, 100)]
  /\ ~ (forall (ls_edges0 : list wh) (b : wh),
           In b ls_edges0 -> fst b < 5 \/ snd b < 5 ->
           ~ In b (filter_edges ls_edges0)).
Proof.
  split; [reflexivity|].
  intros H. apply (H [(3, 100); (3, 4)] (3, 100)).
  - now left.
  - left. reflexivity.
  - now left.
Qed.

(** ** The genetic loop *)

Lemma mutate_at_least_2 (k v : list wh) : Forall at_least_2 (mutate k v).
Proof.
  apply Forall_forall. intros a Ha. unfold mutate in Ha.
  apply in_map_iff in Ha as [p [<- _]].
  split; cbn [fst snd]; apply qmax_ge_r.
Qed.

Lemma mutate_length (k v : list wh) :
  List.length v = List.length k ->
  List.length (mutate k v) = List.length k.
Proof.
  intros H. unfold mutate. rewrite length_map, length_combine, H.
  apply Nat.min_id.
Qed.

Lemma sample_mask_length (mp s : Q) (rows : nat) (tp rest : list draw)
      (v : list wh) :
  sample_mask mp s rows tp = Some (v, rest) -> List.length v = rows.
Proof.
  induction tp as [|d tp IH]; cbn; [discriminate|].
  destruct (all_ones (mutation_mask mp s rows d)); [exact IH|].
  intros [= <- _]. unfold mutation_mask. now rewrite length_map, length_seq.
Qed.

(** What one generation that returns has done. *)
Lemma generation_returns (ls_edges ls_edges0 : list wh) (thr : Q) (n : nat)
      (verbose : bool) (st st' : list wh * Q) (w w' : world) :
  generation ls_edges ls_edges0 thr n verbose st w = Ret st' w' ->
  exists (v : list wh) (rest : list draw) (fg : Q),
    sample_mask (9 # 10) (1 # 10) (List.length (fst st)) (tape w)
    = Some (v, rest)
    /\ anchor_fitness ls_edges thr (mutate (fst st) v) = inr fg
    /\ st' = (if Qgtb fg (snd st) then (mutate (fst st) v, fg) else st).
Proof.
  unfold generation, bind, draw_mask, lift. cbv zeta.
  destruct (sample_mask _ _ _ (tape w)) as [[v rest]|] eqn:Ev;
    [|discriminate].
  destruct (anchor_fitness ls_edges thr (mutate (fst st) v)) as [e|fg] eqn:Ef;
    [discriminate|].
  intros H. exists v, rest, fg. split; [reflexivity|].
  split; [exact Ef|].
  unfold ret in H. cbv beta iota in H.
  destruct (Qgtb fg (snd st)).
  - destruct verbose.
    + destruct (print_results _ _ _ _ _ _) as [a w1|e w1|];
        try discriminate. now injection H as <- _.
    + now injection H as <- _.
  - injection H as <- _. now destruct st.
Qed.

Lemma generation_monotone (ls_edges ls_edges0 : list wh) (thr : Q) (n : nat)
      (verbose : bool) (st st' : list wh * Q) (w w' : world) :
  generation ls_edges ls_edges0 thr n verbose st w = Ret st' w' ->
  snd st <= snd st'.
Proof.
  intros H. apply generation_returns in H as [v [rest [fg [_ [_ ->]]]]].
  destruct (Qgtb fg (snd st)) eqn:E; [|apply Qle_refl].
  apply Qgtb_true in E. cbn [snd]. now apply Qlt_le_weak.
Qed.

Lemma evolve_monotone (ls_edges ls_edges0 : list wh) (thr : Q) (n : nat)
      (verbose : bool) (gen : nat) :
  forall (st st' : list wh * Q) (w w' : world),
    evolve ls_edges ls_edges0 thr n verbose gen st w = Ret st' w' ->
    snd st <= snd st'.
Proof.
  induction gen as [|gen IH]; intros st st' w w'; cbn [evolve].
  - intros [= <- _]. apply Qle_refl.
  - unfold bind.
    destruct (generation ls_edges ls_edges0 thr n verbose st w)
      as [st1 w1|e w1|] eqn:G; try discriminate.
    intros H. eapply Qle_trans.
    + eapply generation_monotone, G.
    + eapply IH, H.
Qed.

(** The loop over [gen + 1] generations is the loop over [gen] generations
    followed by one more. *)
Lemma evolve_one_more (ls_edges ls_edges0 : list wh) (thr : Q) (n : nat)
      (verbose : bool) (gen : nat) :
  forall (st : list wh * Q) (w : world),
    evolve ls_edges ls_edges0 thr n verbose (S gen) st w
    = bind (evolve ls_edges ls_edges0 thr n verbose gen st)
           (generation ls_edges ls_edges0 thr n verbose) w.
Proof.
  induction gen as [|gen IH]; intros st w.
  - cbn [evolve]. unfold bind, ret.
    now destruct (generation ls_edges ls_edges0 thr n verbose st w).
  - change (evolve ls_edges ls_edges0 thr n verbose (S (S gen)) st w)
      with (bind (generation ls_edges ls_edges0 thr n verbose st)
                 (evolve ls_edges ls_edges0 thr n verbose (S gen)) w).
    change (evolve ls_edges ls_edges0 thr n verbose (S gen) st)
      with (bind (generation ls_edges ls_edges0 thr n verbose st)
                 (evolve ls_edges ls_edges0 thr n verbose gen)).
    unfold bind.
    destruct (generation ls_edges ls_edges0 thr n verbose st w)
      as [st1 w1|e w1|]; try reflexivity.
    rewrite IH. reflexivity.
Qed.

(** C6.  A generation that returns has drawn a mask [v] and scored the
    candidate [mutate k v]; the candidate and its fitness replace the current
    pair exactly when that fitness is strictly greater, and otherwise the pair
    is kept.  So the best fitness after [gen + 1] generations is never below
    the one after [gen] generations, for the same draws, and never below the
    initial one. *)
Theorem best_fitness_never_decreases
        (ls_edges ls_edges0 : list wh) (thr : Q) (n : nat) (verbose : bool) :
  (forall (st st' : list wh * Q) (w w' : world),
      generation ls_edges ls_edges0 thr n verbose st w = Ret st' w' ->
      snd st <= snd st'
      /\ exists (v : list wh) (rest : list draw) (fg : Q),
          sample_mask (9 # 10) (1 # 10) (List.length (fst st)) (tape w)
          = Some (v, rest)
          /\ anchor_fitness ls_edges thr (mutate (fst st) v) = inr fg
          /\ (snd st < fg -> st' = (mutate (fst st) v, fg))
          /\ (fg <= snd st -> st' = st))
  /\
  (forall (gen : nat) (st st1 st2 : list wh * Q) (w w1 w2 : world),
      evolve ls_edges ls_edges0 thr n verbose gen st w = Ret st1 w1 ->
      evolve ls_edges ls_edges0 thr n verbose (S gen) st w = Ret st2 w2 ->
      snd st <= snd st1 /\ snd st1 <= snd st2).
Proof.
  split.
  - intros st st' w w' H. split; [eapply generation_monotone, H|].
    apply generation_returns in H as [v [rest [fg [Hv [Hf ->]]]]].
    exists v, rest, fg. split; [exact Hv|]. split; [exact Hf|]. split.
    + intros L. apply Qgtb_true in L. now rewrite L.
    + intros L. apply Qgtb_false in L. now rewrite L.
  - intros gen st st1 st2 w w1 w2 H1 H2. split.
    + eapply evolve_monotone, H1.
    + rewrite evolve_one_more in H2. unfold bind in H2. rewrite H1 in H2.
      eapply generation_monotone, H2.
Qed.

(** C8.  Every candidate [(k * v).clip(min=2.0)] has both edges of every
    anchor at 2.0 or more and the shape of [k]; so after a generation that
    returns, the anchors of the loop are the ones it started from or a
    candidate with all edges at 2.0 or more. *)
Theorem candidate_edges_at_least_2
        (ls_edges ls_edges0 : list wh) (thr : Q) (n : nat) (verbose : bool) :
  (forall k v : list wh, Forall at_least_2 (mutate k v))
  /\
  (forall (st st' : list wh * Q) (w w' : world),
      generation ls_edges ls_edges0 thr n verbose st w = Ret st' w' ->
      exists (v : list wh) (rest : list draw),
        sample_mask (9 # 10) (1 # 10) (List.length (fst st)) (tape w)
        = Some (v, rest)
        /\ Forall at_least_2 (mutate (fst st) v)
        /\ List.length (mutate (fst st) v) = List.length (fst st)
        /\ (fst st' = fst st \/ fst st' = mutate (fst st) v)).
Proof.
  split; [exact mutate_at_least_2|].
  intros st st' w w' H.
  apply generation_returns in H as [v [rest [fg [Hv [_ ->]]]]].
  exists v, rest. split; [exact Hv|]. split; [apply mutate_at_least_2|].
  split.
  - apply mutate_length. eapply sample_mask_length, Hv.
  - destruct (Qgtb fg (snd st)); [now right|now left].
Qed.

Lemma best_fitness_never_decreases_witness :
  let st0 : list wh * Q := ([(100, 100)], 1 # 2) in
  let st1 : list wh * Q := ([(2200 # 20, 2200 # 20)], 2200 # 4000) in
  let st2 : list wh * Q := ([(48400 # 400, 48400 # 400)], 48400 # 80000) in
  let w0 := mkWorld head_small [] [draw_idle; draw_up; draw_up] in
  generation [(200, 200)] [(200, 200)] (1 / 4) 1 false st0 w0
  = Ret st1 (mkWorld head_small [] [draw_up])
  /\ evolve [(200, 200)] [(200, 200)] (1 / 4) 1 false 1 st0 w0
     = Ret st1 (mkWorld head_small [] [draw_up])
  /\ evolve [(200, 200)] [(200, 200)] (1 / 4) 1 false 2 st0 w0
     = Ret st2 (mkWorld head_small [] [])
  /\ snd st0 <= snd st1 /\ snd st1 <= snd st2.
Proof.
  intros st0 st1 st2 w0.
  pose proof (best_fitness_never_decreases
                [(200, 200)] [(200, 200)] (1 / 4) 1 false) as [Hstep Hrun].
  assert (E0 : generation [(200, 200)] [(200, 200)] (1 / 4) 1 false st0 w0
               = Ret st1 (mkWorld head_small [] [draw_up]))
    by (vm_compute; reflexivity).
  assert (E1 : evolve [(200, 200)] [(200, 200)] (1 / 4) 1 false 1 st0 w0
               = Ret st1 (mkWorld head_small [] [draw_up]))
    by (vm_compute; reflexivity).
  assert (E2 : evolve [(200, 200)] [(200, 200)] (1 / 4) 1 false 2 st0 w0
               = Ret st2 (mkWorld head_small [] []))
    by (vm_compute; reflexivity).
  split; [exact E0|]. split; [exact E1|]. split; [exact E2|].
  split.
  - exact (proj1 (Hstep _ _ _ _ E0)).
  - exact (proj2 (Hrun _ _ _ _ _ _ _ E1 E2)).
Defined.

Lemma candidate_edges_at_least_2_witness :
  let st0 : list wh * Q := ([(100, 100)], 1 # 2) in
  let st1 : list wh * Q := ([(2200 # 20, 2200 # 20)], 2200 # 4000) in
  let w0 := mkWorld head_small [] [draw_idle; draw_up] in
  Forall at_least_2 (mutate [(1, 6); (3, 1)] [(3 # 10, 3 # 10); (3, 3)])
  /\ generation [(200, 200)] [(200, 200)] (1 / 4) 1 false st0 w0
     = Ret st1 (mkWorld head_small [] [])
  /\ exists (v : list wh) (rest : list draw),
      sample_mask (9 # 10) (1 # 10) 1 (tape w0) = Some (v, rest)
      /\ Forall at_least_2 (mutate (fst st0) v).
Proof.
  intros st0 st1 w0.
  pose proof (candidate_edges_at_least_2
                [(200, 200)] [(200, 200)] (1 / 4) 1 false) as [Hall Hgen].
  assert (E : generation [(200, 200)] [(200, 200)] (1 / 4) 1 false st0 w0
              = Ret st1 (mkWorld head_small [] []))
    by (vm_compute; reflexivity).
  split; [apply Hall|]. split; [exact E|].
  destruct (Hgen _ _ _ _ E) as [v [rest [Hv [Hk _]]]].
  exists v, rest. split; [exact Hv|exact Hk].
Defined.

(** ** Sorting by area *)

Lemma insert_by_area_perm (a : wh) (l : list wh) :
  Permutation (a :: l) (insert_by_area a l).
Proof.
  induction l as [|b l IH]; cbn [insert_by_area]; [reflexivity|].
  destruct (Qle_bool (area a) (area b)); [reflexivity|].
  rewrite perm_swap. now apply perm_skip.
Qed.

Lemma sort_by_area_perm (l : list wh) : Permutation l (sort_by_area l).
Proof.
  induction l as [|a l IH]; cbn; [reflexivity|].
  rewrite <- insert_by_area_perm. now apply perm_skip.
Qed.

Lemma insert_by_area_hd (a b : wh) (l : list wh) :
  HdRel area_le b l -> area_le b a -> HdRel area_le b (insert_by_area a l).
Proof.
  intros Hl Hab. destruct l as [|c l]; cbn [insert_by_area].
  - now constructor.
  - destruct (Qle_bool (area a) (area c)); constructor; [assumption|].
    now inversion Hl.
Qed.

Lemma insert_by_area_sorted (a : wh) (l : list wh) :
  Sorted area_le l -> Sorted area_le (insert_by_area a l).
Proof.
  induction 1 as [|b l Hs IH Hb]; cbn [insert_by_area].
  - repeat constructor.
  - destruct (Qle_bool (area a) (area b)) eqn:E.
    + apply Qle_bool_iff in E. repeat constructor; assumption.
    + constructor; [exact IH|]. apply insert_by_area_hd; [exact Hb|].
      unfold area_le. apply Qlt_le_weak, Qgtb_true. unfold Qgtb. now rewrite E.
Qed.

Lemma sort_by_area_sorted (l : list wh) : Sorted area_le (sort_by_area l).
Proof.
  induction l as [|a l IH]; cbn; [constructor|].
  now apply insert_by_area_sorted.
Qed.

Lemma sort_by_area_of_sorted (l : list wh) :
  Sorted area_le l -> sort_by_area l = l.
Proof.
  induction 1 as [|a l Hs IH Ha]; [reflexivity|].
  cbn [sort_by_area fold_right]. fold (sort_by_area l). rewrite IH.
  destruct Ha as [|b l Hab]; [reflexivity|]. cbn [insert_by_area].
  apply Qle_bool_iff in Hab. now rewrite Hab.
Qed.

Lemma sort_by_area_nonempty (l : list wh) : l <> [] -> sort_by_area l <> [].
Proof.
  intros H E. apply H. apply Permutation_nil.
  rewrite <- E. symmetry. apply sort_by_area_perm.
Qed.

(** ** [kmean_anchors] when no candidate is accepted *)

Lemma print_results_returns (ls_edges0 : list wh) (thr : Q) (n : nat)
      (k : list wh) (verbose : bool) (w : world) :
  k <> [] ->
  exists w' : world,
    print_results ls_edges0 thr n k verbose w = Ret (sort_by_area k) w'
    /\ head w' = head w /\ tape w' = tape w.
Proof.
  intros Hk. apply sort_by_area_nonempty in Hk.
  unfold print_results, bind, lift, metric_x_best.
  destruct (sort_by_area k) as [|a l] eqn:E; [congruence|].
  cbn [List.length max_axis1 ret].
  destruct verbose; cbn; eexists; repeat split.
Qed.

Lemma evolve_never_improves (ls_edges ls_edges0 : list wh) (thr : Q) (n : nat)
      (verbose : bool) (k : list wh) (f : Q) (gen : nat) :
  forall w : world,
    never_improves ls_edges thr k f gen (tape w) = true ->
    exists rest : list draw,
      evolve ls_edges ls_edges0 thr n verbose gen (k, f) w
      = Ret (k, f) (mkWorld (head w) (log w) rest).
Proof.
  induction gen as [|gen IH]; intros w H.
  - exists (tape w). cbn. now destruct w.
  - cbn [never_improves] in H.
    destruct (sample_mask _ _ _ (tape w)) as [[v rest]|] eqn:Ev;
      [|discriminate].
    destruct (anchor_fitness ls_edges thr (mutate k v)) as [e|fg] eqn:Ef;
      [discriminate|].
    apply andb_true_iff in H as [Hfg Hrest].
    apply negb_true_iff in Hfg.
    destruct (IH (mkWorld (head w) (log w) rest) Hrest) as [rest' E].
    exists rest'. cbn [evolve]. unfold bind at 1.
    assert (G : generation ls_edges ls_edges0 thr n verbose (k, f) w
                = Ret (k, f) (mkWorld (head w) (log w) rest)).
    { unfold generation, bind, draw_mask, lift. cbv zeta. cbn [fst snd].
      rewrite Ev, Ef. unfold ret. cbv beta iota. now rewrite Hfg. }
    rewrite G. exact E.
Qed.

Lemma print_results_quiet (ls_edges0 : list wh) (thr : Q) (n : nat)
      (k : list wh) (w : world) :
  k <> [] ->
  print_results ls_edges0 thr n k false w = Ret (sort_by_area k) w.
Proof.
  intros Hk. apply sort_by_area_nonempty in Hk.
  unfold print_results, bind, lift, metric_x_best.
  destruct (sort_by_area k) as [|a l] eqn:E; [congruence|]. reflexivity.
Qed.

Lemma kmeans_seed_returns (ext : Collaborators) (ls_edges0 ls_edges : list wh)
      (thr : Q) (n : nat) (centroids : list wh) (dist : Q) (w : world) :
  scipy_kmeans ext
    (map (fun b => (fst b / fst (np_std0 ext ls_edges),
                    snd b / snd (np_std0 ext ls_edges))) ls_edges) n 30
  = inr (centroids, dist) ->
  List.length centroids = n ->
  n <> 0%nat ->
  kmeans_seed ext ls_edges0 ls_edges thr n w
  = Ret (sort_by_area
           (map (fun c => (fst c * fst (np_std0 ext ls_edges),
                           snd c * snd (np_std0 ext ls_edges))) centroids))
        (mkWorld (head w)
                 (log w ++ [Log_running_kmeans n (List.length ls_edges)])
                 (tape w)).
Proof.
  intros Hkm Hlen Hn.
  unfold kmeans_seed, bind, emit. cbv zeta. rewrite Hkm. cbn [lift ret fst].
  rewrite Hlen, Nat.eqb_refl. unfold ret.
  apply print_results_quiet.
  destruct centroids; [cbn in Hlen; congruence|discriminate].
Qed.

(** C10.  When the edges were collected, k-means answered with [n >= 1]
    centroids, and in none of the [gen] generations the candidate's fitness
    exceeds the fitness of the seed, [kmean_anchors] returns the un-whitened
    centroids themselves, sorted by area ascending: a permutation of the seed
    to which no clip was applied, so a seed anchor with an edge below 2.0 is
    returned with that edge. *)
Theorem kmean_anchors_returns_sorted_seed
        (ext : Collaborators) (dataset : dataset_arg) (n : nat)
        (img_size thr : Q) (gen : nat) (verbose : bool) (w w1 : world)
        (ls_edges0 ls_edges centroids : list wh) (dist f0 : Q) :
  let s := np_std0 ext ls_edges in
  let seed := map (fun c => (fst c * fst s, snd c * snd s)) centroids in
  collect_edges ext dataset img_size (entered n gen w)
  = Ret (ls_edges0, ls_edges) w1 ->
  scipy_kmeans ext (map (fun b => (fst b / fst s, snd b / snd s)) ls_edges)
               n 30
  = inr (centroids, dist) ->
  List.length centroids = n ->
  n <> 0%nat ->
  anchor_fitness ls_edges (1 / thr) (sort_by_area seed) = inr f0 ->
  never_improves ls_edges (1 / thr) (sort_by_area seed) f0 gen (tape w1)
  = true ->
  exists w' : world,
    kmean_anchors ext dataset n img_size thr gen verbose w
    = Ret (sort_by_area seed) w'
    /\ Sorted area_le (sort_by_area seed)
    /\ Permutation seed (sort_by_area seed)
    /\ (Exists below_2 seed -> Exists below_2 (sort_by_area seed)).
Proof.
  intros s seed Hedges Hkm Hlen Hn Hf Hnever.
  assert (Hseed : seed <> []).
  { subst seed. destruct centroids; [cbn in Hlen; congruence|discriminate]. }
  pose (w2 := mkWorld (head w1)
                      (log w1 ++ [Log_running_kmeans n (List.length ls_edges)])
                      (tape w1)).
  destruct (evolve_never_improves ls_edges ls_edges0 (1 / thr) n verbose
              (sort_by_area seed) f0 gen w2 Hnever) as [rest Hev].
  destruct (print_results_returns ls_edges0 (1 / thr) n (sort_by_area seed)
              true (mkWorld (head w2) (log w2) rest)
              (sort_by_area_nonempty _ Hseed)) as [w' [Hpr _]].
  rewrite (sort_by_area_of_sorted _ (sort_by_area_sorted seed)) in Hpr.
  exists w'. split; [|split; [|split]].
  - unfold kmean_anchors. unfold bind at 1.
    change (emit (Enter_kmean_anchors n gen) w) with (Ret tt (entered n gen w)).
    cbv beta iota zeta. unfold bind at 1. rewrite Hedges. cbn [fst snd].
    unfold bind at 1.
    rewrite (kmeans_seed_returns ext ls_edges0 ls_edges (1 / thr) n
               centroids dist w1 Hkm Hlen Hn).
    fold s. fold seed. fold w2.
    unfold bind at 1. rewrite Hf. cbn [lift ret].
    unfold bind. rewrite Hev. cbn [fst]. exact Hpr.
  - apply sort_by_area_sorted.
  - apply sort_by_area_perm.
  - intros Hex. apply Exists_exists in Hex as [a [Ha Hlow]].
    apply Exists_exists. exists a. split; [|exact Hlow].
    eapply Permutation_in; [apply sort_by_area_perm|exact Ha].
Qed.

Lemma kmean_anchors_returns_sorted_seed_witness :
  exists (k : list wh) (w' : world),
    kmean_anchors (collaborators_with kmeans_first_points)
                  (Dataset_loaded dataset_thin) 1 640 4 2 false
                  (mkWorld head_small [] [draw_idle; draw_up; draw_up])
    = Ret k w'
    /\ Sorted area_le k
    /\ Exists below_2 k.
Proof.
  edestruct (kmean_anchors_returns_sorted_seed
               (collaborators_with kmeans_first_points)
               (Dataset_loaded dataset_thin) 1 640 4 2 false
               (mkWorld head_small [] [draw_idle; draw_up; draw_up]))
    as [w' [Hrun [Hsorted [_ Hbelow]]]].
  - vm_compute. reflexivity.
  - vm_compute. reflexivity.
  - reflexivity.
  - discriminate.
  - vm_compute. reflexivity.
  - vm_compute. reflexivity.
  - eexists. exists w'. split; [exact Hrun|]. split; [exact Hsorted|].
    apply Hbelow. constructor. left. vm_compute. reflexivity.
Defined.

(** ** [check_anchors] *)

(** C9.  When the recall of the current anchors exceeds 0.98,
    [check_anchors] returns after the one log line of line 65: the anchor
    tensor and the strides of the head are the ones it started with, no draw
    was consumed and [kmean_anchors] was not entered. *)
Theorem check_anchors_good_fit_keeps_model
        (ext : Collaborators) (dataset : Dataset) (thr imgsz : Q) (w : world)
        (ls_edges : list wh) (current : list (list wh)) (bpr aat : Q) :
  check_edges ext dataset imgsz = inr ls_edges ->
  pixel_anchors (head w) = inr current ->
  metric ls_edges thr (Array2 (concat current)) = inr (bpr, aat) ->
  98 # 100 < bpr ->
  exists w' : world,
    check_anchors ext dataset thr imgsz w = Ret tt w'
    /\ anchors (head w') = anchors (head w)
    /\ stride (head w') = stride (head w)
    /\ tape w' = tape w
    /\ log w' = log w ++ [Log_good_fit aat bpr]
    /\ (forall n gen, In (Enter_kmean_anchors n gen) (log w') ->
                      In (Enter_kmean_anchors n gen) (log w)).
Proof.
  intros Hedges Hpix Hmetric Hgood.
  exists (mkWorld (head w) (log w ++ [Log_good_fit aat bpr]) (tape w)).
  split.
  - unfold check_anchors, bind, get_head. rewrite Hedges. cbn [lift ret].
    rewrite Hpix. cbn [lift ret]. rewrite Hmetric. cbn [lift ret fst snd].
    apply Qgtb_true in Hgood. rewrite Hgood. reflexivity.
  - cbn [head log tape]. repeat split.
    intros n gen Hin. apply in_app_or in Hin as [Hin|[Hin|[]]];
      [assumption|discriminate].
Qed.

Lemma check_anchors_good_fit_keeps_model_witness :
  exists w' : world,
    check_anchors (collaborators_with kmeans_raises) dataset_200 4 640
                  (mkWorld head_large [] [draw_up])
    = Ret tt w'
    /\ anchors (head w') = [[(20, 20)]; [(20, 20)]]
    /\ stride (head w') = [8; 16]
    /\ tape w' = [draw_up]
    /\ log w' = [Log_good_fit (6 # 3) (3 # 3)].
Proof.
  edestruct (check_anchors_good_fit_keeps_model
               (collaborators_with kmeans_raises) dataset_200 4 640
               (mkWorld head_large [] [draw_up]))
    as [w' [Hrun [Ha [Hs [Ht [Hl _]]]]]].
  - vm_compute. reflexivity.
  - vm_compute. reflexivity.
  - vm_compute. reflexivity.
  - reflexivity.
  - exists w'. repeat split; assumption.
Defined.

(** On the tensor of line 61 the division of [metric] broadcasts the boxes
    against the levels and fails unless their numbers agree or one is 1. *)
Lemma metric_tensor_shape_mismatch (ls_edges : list wh) (thr : Q)
      (a : list (list wh)) :
  List.length ls_edges <> List.length a ->
  List.length ls_edges <> 1%nat ->
  List.length a <> 1%nat ->
  metric ls_edges thr (Tensor3 a) = inl RuntimeError.
Proof.
  intros Hne H1 H2. cbn [metric]. unfold metric_tensor, broadcast.
  apply Nat.eqb_neq in Hne. rewrite Hne.
  destruct ls_edges as [|b [|b' ls]]; destruct a as [|l [|l' a]];
    cbn in *; congruence.
Qed.

(** After a failure of the optimizer on a poor fit, [check_anchors] logs the
    failure and calls [metric] on the three-dimensional tensor: when the number
    of boxes is neither the number of levels nor 1, and there is more than one
    level, that call raises and the exception leaves [check_anchors]. *)
Lemma check_anchors_optimizer_failure_reraises
      (ext : Collaborators) (dataset : Dataset) (thr imgsz : Q) (w w2 : world)
      (ls_edges : list wh) (current : list (list wh)) (bpr aat : Q) (e : exn) :
  check_edges ext dataset imgsz = inr ls_edges ->
  pixel_anchors (head w) = inr current ->
  metric ls_edges thr (Array2 (concat current)) = inr (bpr, aat) ->
  bpr <= 98 # 100 ->
  kmean_anchors ext (Dataset_loaded dataset)
                (List.length (concat (anchors (head w)))) imgsz thr 1000 false
                (mkWorld (head w) (log w ++ [Log_poor_fit aat bpr]) (tape w))
  = Exc e w2 ->
  List.length ls_edges <> List.length current ->
  List.length ls_edges <> 1%nat ->
  List.length current <> 1%nat ->
  check_anchors ext dataset thr imgsz w
  = Exc RuntimeError (mkWorld (head w2) (log w2 ++ [Log_error e]) (tape w2)).
Proof.
  intros Hedges Hpix Hmetric Hpoor Hkm Hne H1 H2.
  unfold check_anchors, bind, get_head. rewrite Hedges. cbn [lift ret].
  rewrite Hpix. cbn [lift ret]. rewrite Hmetric. cbn [lift ret fst snd].
  apply Qgtb_false in Hpoor. rewrite Hpoor.
  unfold emit at 1. unfold try_except, bind. rewrite Hkm.
  unfold emit at 1. cbn [ret].
  rewrite (metric_tensor_shape_mismatch _ _ _ Hne H1 H2). reflexivity.
Qed.

(** C1 at a failing input: three images with one 200 by 200 box each, a head
    of two levels whose pixel anchors 8 by 8 and 32 by 32 fit none of them,
    and a clustering that raises [ValueError].  The failure is logged, and
    [check_anchors] then raises [RuntimeError] from [metric(anchors)]: three
    boxes do not broadcast against two levels.  The anchors of the head are
    unchanged. *)
Theorem check_anchors_raises_after_optimizer_failure :
  check_anchors (collaborators_with kmeans_raises) dataset_200 4 640
                (world_of head_small)
  = Exc RuntimeError
        (mkWorld head_small
                 [Log_poor_fit (0 # 3) (0 # 3);
                  Enter_kmean_anchors 2 1000;
                  Print_labels;
                  Print_edges [(81920000 # 409600, 81920000 # 409600);
                               (81920000 # 409600, 81920000 # 409600);
                               (81920000 # 409600, 81920000 # 409600)];
                  Log_running_kmeans 2 3;
                  Log_error ValueError]
                 []).
Proof. vm_compute. reflexivity. Qed.

(** * Further properties of the module *)

(** ** Frames of the monadic code *)

Section Frame.

Variable R : world -> world -> Prop.
Hypothesis R_refl : forall w, R w w.
Hypothesis R_trans : forall w1 w2 w3, R w1 w2 -> R w2 w3 -> R w1 w3.

Lemma respects_ret {A} (a : A) : respects R (ret a).
Proof. intros w w' [= <-]. apply R_refl. Qed.

Lemma respects_raise {A} (e : exn) : respects R (@raise A e).
Proof. intros w w' [= <-]. apply R_refl. Qed.

Lemma respects_lift {A} (r : exn + A) : respects R (lift r).
Proof. destruct r; [apply respects_raise|apply respects_ret]. Qed.

Lemma respects_index {A} (o : option A) : respects R (index o).
Proof. destruct o; [apply respects_ret|apply respects_raise]. Qed.

Lemma respects_get_head : respects R get_head.
Proof. intros w w' [= <-]. apply R_refl. Qed.

Lemma respects_bind {A B} (m : M A) (k : A -> M B) :
  respects R m -> (forall a, respects R (k a)) -> respects R (bind m k).
Proof.
  intros Hm Hk w w'. unfold bind.
  destruct (m w) as [a w1|e w1|] eqn:E; cbn [final_world].
  - intros H. apply (R_trans w w1 w').
    + apply Hm. now rewrite E.
    + eapply Hk, H.
  - intros [= <-]. apply Hm. now rewrite E.
  - discriminate.
Qed.

Lemma respects_try_except {A} (body : M A) (handler : exn -> M A) :
  respects R body -> (forall e, respects R (handler e)) ->
  respects R (try_except body handler).
Proof.
  intros Hb Hh w w'. unfold try_except.
  destruct (body w) as [a w1|e w1|] eqn:E; cbn [final_world].
  - intros [= <-]. apply Hb. now rewrite E.
  - intros H. apply (R_trans w w1 w').
    + apply Hb. now rewrite E.
    + eapply Hh, H.
  - discriminate.
Qed.

End Frame.

Ltac frame_step R Hrefl Htrans Hemit :=
  match goal with
  | |- respects _ (bind _ _) => apply (respects_bind R Htrans); [|intro]
  | |- respects _ (ret _) => apply (respects_ret R Hrefl)
  | |- respects _ (raise _) => apply (respects_raise R Hrefl)
  | |- respects _ (lift _) => apply (respects_lift R Hrefl)
  | |- respects _ (index _) => apply (respects_index R Hrefl)
  | |- respects _ get_head => apply (respects_get_head R Hrefl)
  | |- respects _ (emit _) => apply Hemit
  | |- respects _ (if ?b then _ else _) => destruct b
  | |- respects _ (match ?x with _ => _ end) => destruct x
  end.

Lemma log_grows_refl (w : world) : log_grows w w.
Proof. exists []. now rewrite app_nil_r. Qed.

Lemma log_grows_trans (w1 w2 w3 : world) :
  log_grows w1 w2 -> log_grows w2 w3 -> log_grows w1 w3.
Proof.
  intros [l1 H1] [l2 H2]. exists (l1 ++ l2). now rewrite H2, H1, app_assoc.
Qed.

Lemma draws_consumed_refl (w : world) : draws_consumed w w.
Proof. now exists []. Qed.

Lemma draws_consumed_trans (w1 w2 w3 : world) :
  draws_consumed w1 w2 -> draws_consumed w2 w3 -> draws_consumed w1 w3.
Proof.
  intros [l1 H1] [l2 H2]. exists (l1 ++ l2). now rewrite H1, H2, app_assoc.
Qed.

Lemma head_kept_refl (w : world) : head_kept w w.
Proof.
  split; [reflexivity|]. split; [apply log_grows_refl|apply draws_consumed_refl].
Qed.

Lemma head_kept_trans (w1 w2 w3 : world) :
  head_kept w1 w2 -> head_kept w2 w3 -> head_kept w1 w3.
Proof.
  intros [H1 [L1 D1]] [H2 [L2 D2]]. split; [congruence|]. split.
  - eapply log_grows_trans; eassumption.
  - eapply draws_consumed_trans; eassumption.
Qed.

Lemma strides_kept_refl (w : world) : strides_kept w w.
Proof.
  repeat split; try reflexivity;
    [apply log_grows_refl|apply draws_consumed_refl].
Qed.

Lemma strides_kept_trans (w1 w2 w3 : world) :
  strides_kept w1 w2 -> strides_kept w2 w3 -> strides_kept w1 w3.
Proof.
  intros [S1 [N1 [L1 D1]]] [S2 [N2 [L2 D2]]].
  split; [congruence|]. split; [congruence|]. split.
  - eapply log_grows_trans; eassumption.
  - eapply draws_consumed_trans; eassumption.
Qed.

Lemma head_kept_strides_kept (w w' : world) :
  head_kept w w' -> strides_kept w w'.
Proof.
  intros [H [L D]]. repeat split; try assumption; now rewrite H.
Qed.

Lemma respects_weaken {A} (R R' : world -> world -> Prop) (m : M A) :
  (forall w w', R w w' -> R' w w') -> respects R m -> respects R' m.
Proof. intros H Hm w w' E. apply H, Hm, E. Qed.

Lemma emit_head_kept (e : event) : respects head_kept (emit e).
Proof.
  intros w w' [= <-]. split; [reflexivity|]. split.
  - now exists [e].
  - now exists [].
Qed.

Lemma emit_strides_kept (e : event) : respects strides_kept (emit e).
Proof.
  eapply respects_weaken; [apply head_kept_strides_kept|apply emit_head_kept].
Qed.

Ltac head_frame :=
  repeat frame_step head_kept head_kept_refl head_kept_trans emit_head_kept.

Ltac strides_frame :=
  repeat frame_step strides_kept strides_kept_refl strides_kept_trans
         emit_strides_kept.

Lemma sample_mask_suffix (mp s : Q) (rows : nat) (tp rest : list draw)
      (v : list wh) :
  sample_mask mp s rows tp = Some (v, rest) ->
  exists used : list draw, tp = used ++ rest /\ used <> [].
Proof.
  induction tp as [|d tp IH]; cbn; [discriminate|].
  destruct (all_ones (mutation_mask mp s rows d)).
  - intros H. destruct (IH H) as [used [-> _]].
    exists (d :: used). split; [reflexivity|discriminate].
  - intros [= _ <-]. exists [d]. split; [reflexivity|discriminate].
Qed.

Lemma draw_mask_head_kept (mp s : Q) (rows : nat) :
  respects head_kept (draw_mask mp s rows).
Proof.
  intros w w'. unfold draw_mask.
  destruct (sample_mask mp s rows (tape w)) as [[v rest]|] eqn:E;
    [|discriminate].
  intros [= <-]. split; [reflexivity|]. split.
  - exists []. cbn. now rewrite app_nil_r.
  - destruct (sample_mask_suffix _ _ _ _ _ _ E) as [used [H _]].
    now exists used.
Qed.

Lemma print_results_head_kept (ls_edges0 : list wh) (thr : Q) (n : nat)
      (k : list wh) (verbose : bool) :
  respects head_kept (print_results ls_edges0 thr n k verbose).
Proof. unfold print_results. cbv zeta. head_frame. Qed.

Lemma generation_head_kept (ls_edges ls_edges0 : list wh) (thr : Q) (n : nat)
      (verbose : bool) (st : list wh * Q) :
  respects head_kept (generation ls_edges ls_edges0 thr n verbose st).
Proof.
  unfold generation. cbv zeta.
  apply (respects_bind head_kept head_kept_trans);
    [apply draw_mask_head_kept|intro].
  head_frame; apply print_results_head_kept.
Qed.

Lemma evolve_head_kept (ls_edges ls_edges0 : list wh) (thr : Q) (n : nat)
      (verbose : bool) (gen : nat) :
  forall st, respects head_kept
               (evolve ls_edges ls_edges0 thr n verbose gen st).
Proof.
  induction gen as [|gen IH]; intros st; cbn [evolve].
  - apply (respects_ret head_kept head_kept_refl).
  - apply (respects_bind head_kept head_kept_trans);
      [apply generation_head_kept|exact IH].
Qed.

Lemma collect_edges_head_kept (ext : Collaborators) (dataset : dataset_arg)
      (img_size : Q) :
  respects head_kept (collect_edges ext dataset img_size).
Proof. unfold collect_edges. cbv zeta. head_frame. Qed.

Lemma kmeans_seed_head_kept (ext : Collaborators)
      (ls_edges0 ls_edges : list wh) (thr : Q) (n : nat) :
  respects head_kept (kmeans_seed ext ls_edges0 ls_edges thr n).
Proof.
  unfold kmeans_seed. cbv zeta. head_frame. apply print_results_head_kept.
Qed.

Lemma kmean_anchors_head_kept (ext : Collaborators) (dataset : dataset_arg)
      (n : nat) (img_size thr : Q) (gen : nat) (verbose : bool) :
  respects head_kept (kmean_anchors ext dataset n img_size thr gen verbose).
Proof.
  unfold kmean_anchors. cbv zeta.
  apply (respects_bind head_kept head_kept_trans);
    [apply emit_head_kept|intro].
  apply (respects_bind head_kept head_kept_trans);
    [apply collect_edges_head_kept|intro].
  apply (respects_bind head_kept head_kept_trans);
    [apply kmeans_seed_head_kept|intro].
  apply (respects_bind head_kept head_kept_trans);
    [apply (respects_lift head_kept head_kept_refl)|intro].
  apply (respects_bind head_kept head_kept_trans);
    [apply evolve_head_kept|intro].
  apply print_results_head_kept.
Qed.

(** X1.  However [kmean_anchors] ends, by returning or by raising, the
    detection head of the model is the one it started with, the log has only
    grown and the draws were consumed from the front of the random source. *)
Theorem kmean_anchors_keeps_model
        (ext : Collaborators) (dataset : dataset_arg) (n : nat)
        (img_size thr : Q) (gen : nat) (verbose : bool) (w w' : world) :
  final_world (kmean_anchors ext dataset n img_size thr gen verbose w)
  = Some w' ->
  head w' = head w
  /\ (exists added, log w' = log w ++ added)
  /\ (exists used, tape w = used ++ tape w').
Proof. apply kmean_anchors_head_kept. Qed.

Lemma kmean_anchors_keeps_model_witness :
  exists w' : world,
    final_world
      (kmean_anchors (collaborators_with kmeans_first_points)
                     (Dataset_loaded dataset_200) 1 640 4 2 true
                     (mkWorld head_small [Log_saved]
                              [draw_idle; draw_up; draw_up; draw_idle]))
    = Some w'
    /\ head w' = head_small
    /\ (exists added, log w' = [Log_saved] ++ added)
    /\ (exists used,
           [draw_idle; draw_up; draw_up; draw_idle] = used ++ tape w').
Proof.
  remember (mkWorld head_small [Log_saved]
                    [draw_idle; draw_up; draw_up; draw_idle]) as w0 eqn:E0.
  assert (E : exists w', final_world
                (kmean_anchors (collaborators_with kmeans_first_points)
                               (Dataset_loaded dataset_200) 1 640 4 2 true w0)
              = Some w').
  { subst w0. eexists. vm_compute. reflexivity. }
  destruct E as [w' E]. exists w'. split; [exact E|].
  pose proof (kmean_anchors_keeps_model _ _ _ _ _ _ _ _ _ E) as H.
  subst w0. exact H.
Defined.

Lemma check_anchor_order_strides_kept : respects strides_kept check_anchor_order.
Proof.
  intros w w'. unfold check_anchor_order, bind, get_head. cbv zeta.
  destruct (getitem (anchor_areas (anchors (head w))) (-1)) as [al|];
    [|intros [= <-]; apply strides_kept_refl].
  destruct (getitem (anchor_areas (anchors (head w))) 0) as [a0|];
    [|intros [= <-]; apply strides_kept_refl].
  destruct (getitem (stride (head w)) (-1)) as [sl|];
    [|intros [= <-]; apply strides_kept_refl].
  destruct (getitem (stride (head w)) 0) as [s0|];
    [|intros [= <-]; apply strides_kept_refl].
  cbn [index ret].
  destruct (negb _); intros [= <-]; [|apply strides_kept_refl].
  cbn. split; [reflexivity|]. split; [apply length_rev|]. split.
  - now exists [Log_reversing].
  - now exists [].
Qed.

Lemma final_bind {A B} (m : M A) (k : A -> M B) (w w' : world) :
  final_world (bind m k w) = Some w' ->
  (exists e, m w = Exc e w')
  \/ (exists a w1, m w = Ret a w1 /\ final_world (k a w1) = Some w').
Proof.
  unfold bind. destruct (m w) as [a w1|e w1|]; cbn [final_world].
  - intros H. right. now exists a, w1.
  - intros [= <-]. left. now exists e.
  - discriminate.
Qed.

Lemma respects_bind_from_head {A B} (h : Detect) (m : M A) (k : A -> M B) :
  respects head_kept m ->
  (forall a, respects (fun w w' => head w = h -> strides_kept w w') (k a)) ->
  respects (fun w w' => head w = h -> strides_kept w w') (bind m k).
Proof.
  intros Hm Hk w w' H Hh.
  apply final_bind in H as [[e He]|[a [w1 [E1 H]]]].
  - apply head_kept_strides_kept, Hm. now rewrite He.
  - assert (K : head_kept w w1) by (apply Hm; now rewrite E1).
    apply (strides_kept_trans w w1 w').
    + now apply head_kept_strides_kept.
    + apply (Hk a w1 w' H). destruct K as [K _]. congruence.
Qed.

Lemma adopt_strides_kept (h : Detect) (scaled : list (list wh)) :
  respects (fun w w' => head w = h -> strides_kept w w')
           ((if (List.length scaled =? List.length (anchors h))%nat
             then set_anchors scaled else raise RuntimeError) ;;;
            check_anchor_order ;;;
            emit Log_saved).
Proof.
  intros w w' H Hh.
  assert (G : forall w1,
             final_world
               ((if (List.length scaled =? List.length (anchors h))%nat
                 then set_anchors scaled else raise RuntimeError) w)
             = Some w1 -> strides_kept w w1).
  { intros w1. destruct (_ =? _)%nat eqn:E.
    - intros [= <-]. apply Nat.eqb_eq in E. cbn.
      split; [reflexivity|]. split; [now rewrite Hh|]. split.
      + exists []. now rewrite app_nil_r.
      + now exists [].
    - intros [= <-]. apply strides_kept_refl. }
  apply final_bind in H as [[e He]|[a [w1 [E1 H]]]].
  - apply G. now rewrite He.
  - apply (strides_kept_trans w w1 w'); [apply G; now rewrite E1|].
    revert H.
    apply (respects_bind strides_kept strides_kept_trans);
      [apply check_anchor_order_strides_kept|intro].
    apply emit_strides_kept.
Qed.

Lemma check_anchors_strides_kept (ext : Collaborators) (dataset : Dataset)
      (thr imgsz : Q) :
  respects strides_kept (check_anchors ext dataset thr imgsz).
Proof.
  assert (Hlift : forall A (r : exn + A), respects head_kept (lift r))
    by (intros; apply (respects_lift head_kept head_kept_refl)).
  intros w w' H.
  remember (head w) as h eqn:Hh. symmetry in Hh.
  unfold check_anchors in H. unfold bind at 1 in H.
  unfold get_head at 1 in H. rewrite Hh in H.
  revert Hh. revert H. revert w w'.
  match goal with
  | |- forall w w', final_world (?body w) = Some w' -> _ =>
      change (respects (fun w w' => head w = h -> strides_kept w w') body)
  end.
  assert (Hleaf : forall e,
             respects (fun w w' => head w = h -> strides_kept w w') (emit e)).
  { intros e w1 w2 E _. exact (emit_strides_kept e w1 w2 E). }
  apply respects_bind_from_head; [apply Hlift|intro ls_edges].
  apply respects_bind_from_head; [apply Hlift|intro current].
  apply respects_bind_from_head; [apply Hlift|intro ba].
  destruct (Qgtb (fst ba) (98 # 100)); [apply Hleaf|].
  apply respects_bind_from_head; [apply emit_head_kept|intros _].
  apply respects_bind_from_head.
  { apply (respects_try_except head_kept head_kept_trans).
    - apply (respects_bind head_kept head_kept_trans);
        [apply kmean_anchors_head_kept|intro].
      apply (respects_ret head_kept head_kept_refl).
    - intro e. apply (respects_bind head_kept head_kept_trans);
        [apply emit_head_kept|intro].
      apply (respects_ret head_kept head_kept_refl). }
  intro new.
  apply respects_bind_from_head; [apply Hlift|intro nb].
  destruct (Qgtb (fst nb) (fst ba)); [|apply Hleaf].
  apply respects_bind_from_head; [apply Hlift|intro shaped].
  apply respects_bind_from_head; [apply Hlift|intro scaled].
  apply adopt_strides_kept.
Qed.

(** X2.  However [check_anchors] ends, by returning or by raising, the strides
    of the head and its number of levels are the ones it started with, the
    log has only grown and the draws were consumed from the front. *)
Theorem check_anchors_keeps_strides
        (ext : Collaborators) (dataset : Dataset) (thr imgsz : Q)
        (w w' : world) :
  final_world (check_anchors ext dataset thr imgsz w) = Some w' ->
  stride (head w') = stride (head w)
  /\ List.length (anchors (head w')) = List.length (anchors (head w))
  /\ (exists added, log w' = log w ++ added)
  /\ (exists used, tape w = used ++ tape w').
Proof. apply check_anchors_strides_kept. Qed.

Lemma check_anchors_keeps_strides_witness :
  exists w' : world,
    final_world
      (check_anchors (collaborators_with kmeans_first_points) dataset_200
                     4 640 (mkWorld head_small [] (repeat draw_up 1000)))
    = Some w'
    /\ anchors (head w') <> anchors head_small
    /\ stride (head w') = [8; 16]
    /\ List.length (anchors (head w')) = 2%nat.
Proof.
  remember (mkWorld head_small [] (repeat draw_up 1000)) as w0 eqn:E0.
  assert (E : exists w',
             final_world
               (check_anchors (collaborators_with kmeans_first_points)
                              dataset_200 4 640 w0) = Some w'
             /\ anchors (head w') <> anchors head_small).
  { subst w0. eexists. split; [vm_compute; reflexivity|]. discriminate. }
  destruct E as [w' [E Hne]]. exists w'. split; [exact E|].
  split; [exact Hne|].
  destruct (check_anchors_keeps_strides _ _ _ _ _ _ E) as [Hs [Hn _]].
  subst w0. split; [exact Hs|exact Hn].
Defined.

(** ** Outcomes of [check_anchor_order] *)

Lemma getitem_last_none {A} (l : list A) : getitem l (-1) = None <-> l = [].
Proof.
  rewrite getitem_last. split.
  - intros H. destruct l as [|x l]; [reflexivity|].
    destruct (last_error_nonempty (x :: l)) as [y Hy]; [discriminate|].
    congruence.
  - now intros ->.
Qed.

Lemma getitem_first_none {A} (l : list A) : getitem l 0 = None <-> l = [].
Proof. rewrite getitem_first. destruct l; cbn; split; congruence. Qed.

Lemma anchor_areas_nil (a : list (list wh)) :
  anchor_areas a = [] <-> concat a = [].
Proof.
  unfold anchor_areas. rewrite <- concat_map. split; intros H.
  - now apply map_eq_nil in H.
  - now rewrite H.
Qed.

Lemma check_anchor_order_cases (w : world) :
  (concat (anchors (head w)) = [] \/ stride (head w) = [] ->
   check_anchor_order w = Exc IndexError w)
  /\
  (concat (anchors (head w)) <> [] -> stride (head w) <> [] ->
   check_anchor_order w = Ret tt w
   \/ check_anchor_order w
      = Ret tt (mkWorld (mkDetect (rev (anchors (head w))) (stride (head w)))
                        (log w ++ [Log_reversing]) (tape w))).
Proof.
  unfold check_anchor_order, bind, get_head. cbv zeta.
  destruct (getitem (anchor_areas (anchors (head w))) (-1)) as [al|] eqn:E1.
  - assert (Ha : concat (anchors (head w)) <> []).
    { intros H. apply anchor_areas_nil in H.
      apply (proj2 (getitem_last_none _)) in H. congruence. }
    destruct (getitem (anchor_areas (anchors (head w))) 0) as [a0|] eqn:E2.
    + destruct (getitem (stride (head w)) (-1)) as [sl|] eqn:E3.
      * assert (Hs : stride (head w) <> []).
        { intros H. apply (proj2 (getitem_last_none _)) in H. congruence. }
        destruct (getitem (stride (head w)) 0) as [s0|] eqn:E4.
        -- split; [intros [H|H]; contradiction|].
           intros _ _. cbn [index ret].
           destruct (negb _); [right|left]; reflexivity.
        -- apply (proj1 (getitem_first_none _)) in E4. contradiction.
      * split; [reflexivity|]. intros _ H.
        apply (proj1 (getitem_last_none _)) in E3. contradiction.
    + apply (proj1 (getitem_first_none _)) in E2.
      apply anchor_areas_nil in E2. contradiction.
  - split; [reflexivity|]. intros H _.
    apply (proj1 (getitem_last_none _)) in E1.
    apply anchor_areas_nil in E1. contradiction.
Qed.

(** X3.  [check_anchor_order] raises [IndexError], with nothing changed, when
    the head has no anchor or no stride; otherwise it returns, the strides are
    kept and the levels are the ones it started with, in the same or in the
    reversed order, the reversal being logged. *)
Theorem check_anchor_order_outcomes (w : world) :
  (concat (anchors (head w)) = [] \/ stride (head w) = [] ->
   check_anchor_order w = Exc IndexError w)
  /\
  (concat (anchors (head w)) <> [] -> stride (head w) <> [] ->
   check_anchor_order w = Ret tt w
   \/ check_anchor_order w
      = Ret tt (mkWorld (mkDetect (rev (anchors (head w))) (stride (head w)))
                        (log w ++ [Log_reversing]) (tape w))).
Proof. exact (check_anchor_order_cases w). Qed.

Lemma check_anchor_order_outcomes_witness :
  check_anchor_order (world_of (mkDetect [[]; []] [8; 16]))
  = Exc IndexError (world_of (mkDetect [[]; []] [8; 16]))
  /\ (check_anchor_order (world_of head_descending)
      = Ret tt (world_of head_descending)
      \/ check_anchor_order (world_of head_descending)
         = Ret tt (mkWorld (mkDetect (rev (anchors head_descending)) [16; 8])
                           [Log_reversing] [])).
Proof.
  split.
  - apply (proj1 (check_anchor_order_outcomes
                    (world_of (mkDetect [[]; []] [8; 16])))).
    now left.
  - apply (proj2 (check_anchor_order_outcomes (world_of head_descending)));
      discriminate.
Defined.

(** X4.  On a head with a single level [check_anchor_order] never changes the
    anchor tensor, whatever the areas of its anchors: reversing one level is
    the identity (the reversal may still be logged). *)
Theorem check_anchor_order_single_level (w w' : world) :
  List.length (anchors (head w)) = 1%nat ->
  final_world (check_anchor_order w) = Some w' ->
  head w' = head w.
Proof.
  intros Hone H.
  assert (Hrev : rev (anchors (head w)) = anchors (head w)).
  { destruct (anchors (head w)) as [|l [|l' a]]; try discriminate.
    reflexivity. }
  destruct (check_anchor_order_cases w) as [Hexc Hret].
  destruct (concat (anchors (head w))) as [|p c] eqn:Ec.
  { rewrite (Hexc (or_introl eq_refl)) in H. now injection H as <-. }
  destruct (stride (head w)) as [|s ss] eqn:Es.
  { rewrite (Hexc (or_intror eq_refl)) in H. now injection H as <-. }
  destruct Hret as [E|E]; try discriminate; rewrite E in H;
    injection H as <-; [reflexivity|].
  cbn [head]. rewrite Hrev, <- Es. now destruct (head w).
Qed.

Lemma check_anchor_order_single_level_witness :
  exists w' : world,
    final_world
      (check_anchor_order (world_of (mkDetect [[(3, 3); (1, 1)]] [8])))
    = Some w'
    /\ head w' = mkDetect [[(3, 3); (1, 1)]] [8]
    /\ log w' = [Log_reversing].
Proof.
  eexists. split; [reflexivity|]. split; [|reflexivity].
  apply (check_anchor_order_single_level
           (world_of (mkDetect [[(3, 3); (1, 1)]] [8])));
    reflexivity.
Defined.

(** ** Ranges and symmetries of the ratio metric *)

Lemma qmax_either (x y : Q) : qmax x y = x \/ qmax x y = y.
Proof. unfold qmax. destruct (Qle_bool x y); auto. Qed.

Lemma fold_qmax_in (xs : list Q) (acc : Q) :
  In (fold_left qmax xs acc) (acc :: xs).
Proof.
  revert acc. induction xs as [|y xs IH]; intros acc; cbn [fold_left].
  - now left.
  - destruct (IH (qmax acc y)) as [H|H].
    + rewrite <- H.
      destruct (qmax_either acc y) as [E|E]; rewrite E;
        [now left|right; now left].
    + right. right. exact H.
Qed.

Lemma max_list_in (l : list Q) : l <> [] -> In (max_list l) l.
Proof.
  destruct l as [|x xs]; [congruence|]. intros _. apply fold_qmax_in.
Qed.

Lemma min_inv_le_1 (r : Q) : qmin r (1 / r) <= 1.
Proof.
  destruct (Qlt_le_dec 1 r) as [H|H].
  - destruct (qmin_cases r (1 / r)) as [[L ->]|[L ->]].
    + apply Qle_trans with (1 / r); [exact L|].
      apply Qle_shift_div_r; lra.
    + apply Qle_shift_div_r; lra.
  - destruct (qmin_cases r (1 / r)) as [[L ->]|[L ->]]; lra.
Qed.








Lemma Qsum_map_le {A} (f g : A -> Q) (l : list A) :
  (forall x, In x l -> f x <= g x) -> Qsum (map f l) <= Qsum (map g l).
Proof.
  induction l as [|x l IH]; intros H; [apply Qle_refl|].
  cbn [map Qsum fold_right]. fold (Qsum (map f l)) (Qsum (map g l)).
  pose proof (H x (or_introl eq_refl)).
  pose proof (IH (fun y Hy => H y (or_intror Hy))). lra.
Qed.

Lemma Qdiv_le_compat (a b c : Q) : a <= b -> 0 <= c -> a / c <= b / c.
Proof.
  intros Hab Hc. unfold Qdiv. apply Qmult_le_compat_r; [assumption|].
  now apply Qinv_le_0_compat.
Qed.

Lemma length_nonneg_Q {A} (l : list A) :
  0 <= inject_Z (Z.of_nat (List.length l)).
Proof. change 0 with (inject_Z 0). rewrite <- Zle_Qle. lia. Qed.

Lemma mean_map_le {A} (f g : A -> Q) (l : list A) :
  (forall x, In x l -> f x <= g x) -> mean (map f l) <= mean (map g l).
Proof.
  intros H. unfold mean. rewrite !length_map.
  apply Qdiv_le_compat; [now apply Qsum_map_le|apply length_nonneg_Q].
Qed.

Lemma Qsum_ge_element (l : list Q) (x : Q) :
  In x l -> (forall y, In y l -> 0 <= y) -> x <= Qsum l.
Proof.
  induction l as [|z l IH]; intros Hx Hpos; [destruct Hx|].
  cbn [Qsum fold_right]. fold (Qsum l).
  pose proof (Qsum_nonneg l (fun y Hy => Hpos y (or_intror Hy))).
  pose proof (Hpos z (or_introl eq_refl)).
  destruct Hx as [<-|Hx]; [lra|].
  pose proof (IH Hx (fun y Hy => Hpos y (or_intror Hy))). lra.
Qed.

Lemma mean_le_bound (l : list Q) (c : Q) :
  0 <= c -> (forall x, In x l -> x <= c) -> mean l <= c.
Proof.
  intros Hc H. unfold mean. destruct l as [|x l].
  - cbn. exact Hc.
  - apply Qle_shift_div_r; [apply length_pos_Q; discriminate|].
    generalize (x :: l) H. clear. intros l H.
    induction l as [|y l IH].
    + cbn [Qsum fold_right List.length Z.of_nat].
      change (inject_Z 0) with 0. lra.
    + cbn [Qsum fold_right List.length]. fold (Qsum l).
      rewrite Nat2Z.inj_succ, <- Z.add_1_r, inject_Z_plus.
      change (inject_Z 1) with 1.
      pose proof (H y (or_introl eq_refl)).
      pose proof (IH (fun z Hz => H z (or_intror Hz))). lra.
Qed.

(** X6.  On a non-empty anchor array the best possible recall never exceeds
    the anchors-above-threshold, which never exceeds the number of anchors:
    a box that counts for the recall has at least one anchor above the
    threshold. *)
Theorem recall_at_most_anchors_above (ls_edges k : list wh) (thr : Q) :
  k <> [] ->
  exists bpr aat : Q,
    metric ls_edges thr (Array2 k) = inr (bpr, aat)
    /\ bpr <= aat
    /\ aat <= inject_Z (Z.of_nat (List.length k)).
Proof.
  intros Hk. cbn [metric]. rewrite (metric_array_returns _ _ _ Hk).
  do 2 eexists. split; [reflexivity|]. split.
  - rewrite map_map. apply mean_map_le. intros row Hrow.
    unfold ratio_metric in Hrow. apply in_map_iff in Hrow as [b [<- _]].
    apply Qsum_ge_element.
    + apply in_map. apply max_list_in.
      destruct k; [congruence|discriminate].
    + intros y Hy. apply in_map_iff in Hy as [z [<- _]]. apply above_range.
  - apply mean_le_bound; [apply length_nonneg_Q|].
    intros x Hx. apply in_map_iff in Hx as [row [<- Hrow]].
    unfold ratio_metric in Hrow. apply in_map_iff in Hrow as [b [<- _]].
    pose proof (Qsum_range
                  (map (above (1 / thr))
                       (map (fun a => min_cols (min_inv (ratio_row b a))) k)))
      as Hr.
    rewrite !length_map in Hr. apply Hr.
    intros y Hy. apply in_map_iff in Hy as [z [<- _]]. apply above_range.
Qed.

Lemma recall_at_most_anchors_above_witness :
  exists bpr aat : Q,
    metric [(50, 100); (20, 30); (1, 1)] 4
           (Array2 [(20, 30); (50, 100); (25, 40)])
    = inr (bpr, aat)
    /\ bpr <= aat /\ aat <= 3.
Proof.
  apply (recall_at_most_anchors_above
           [(50, 100); (20, 30); (1, 1)] [(20, 30); (50, 100); (25, 40)] 4).
  discriminate.
Defined.

Lemma above_antitone (t t' x : Q) : t' <= t -> above t x <= above t' x.
Proof.
  intros H. unfold above, indicator.
  destruct (Qgtb x t) eqn:E; [|destruct (Qgtb x t'); discriminate].
  apply Qgtb_true in E.
  replace (Qgtb x t') with true; [apply Qle_refl|].
  symmetry. apply Qgtb_true. lra.
Qed.

(** X7.  Raising the threshold ratio never lowers the report: for positive
    ratios [thr <= thr'], the best possible recall and the
    anchors-above-threshold at [thr'] are at least those at [thr]. *)
Theorem metric_monotone_in_ratio (ls_edges k : list wh) (thr thr' : Q) :
  k <> [] ->
  0 < thr ->
  thr <= thr' ->
  exists bpr aat bpr' aat' : Q,
    metric ls_edges thr (Array2 k) = inr (bpr, aat)
    /\ metric ls_edges thr' (Array2 k) = inr (bpr', aat')
    /\ bpr <= bpr' /\ aat <= aat'.
Proof.
  intros Hk Hpos Hle. cbn [metric]. rewrite !(metric_array_returns _ _ _ Hk).
  assert (Ht : 1 / thr' <= 1 / thr).
  { apply Qle_shift_div_l; [lra|].
    assert (E : 1 / thr' * thr == thr / thr') by (field; lra).
    rewrite E. apply Qle_shift_div_r; lra. }
  do 4 eexists. split; [reflexivity|]. split; [reflexivity|]. split.
  - apply mean_map_le. intros x _. now apply above_antitone.
  - apply mean_map_le. intros row _. apply Qsum_map_le.
    intros x _. now apply above_antitone.
Qed.

Lemma metric_monotone_in_ratio_witness :
  exists bpr aat bpr' aat' : Q,
    metric [(50, 100); (20, 30)] 2 (Array2 [(20, 30); (40, 40)])
    = inr (bpr, aat)
    /\ metric [(50, 100); (20, 30)] 4 (Array2 [(20, 30); (40, 40)])
       = inr (bpr', aat')
    /\ bpr <= bpr' /\ aat <= aat'.
Proof.
  apply (metric_monotone_in_ratio
           [(50, 100); (20, 30)] [(20, 30); (40, 40)] 2 4).
  - discriminate.
  - reflexivity.
  - discriminate.
Defined.

Lemma Qgtb_proper (x x' t : Q) : x == x' -> Qgtb x t = Qgtb x' t.
Proof.
  intros E. destruct (Qgtb x' t) eqn:H.
  - apply Qgtb_true in H. apply Qgtb_true. lra.
  - apply Qgtb_false in H. apply Qgtb_false. lra.
Qed.

Lemma above_proper (t x x' : Q) : x == x' -> above t x = above t x'.
Proof. intros E. unfold above. now rewrite (Qgtb_proper x x' t E). Qed.

Lemma fold_qmax_Forall2 (xs xs' : list Q) :
  Forall2 Qeq xs xs' ->
  forall a a', a == a' -> fold_left qmax xs a == fold_left qmax xs' a'.
Proof.
  induction 1 as [|x x' xs xs' Hx _ IH]; intros a a' Ha; cbn; [assumption|].
  apply IH. now apply qmax_proper.
Qed.

Lemma max_list_Forall2 (l l' : list Q) :
  Forall2 Qeq l l' -> max_list l == max_list l'.
Proof.
  destruct 1 as [|x x' xs xs' Hx Hxs]; [reflexivity|].
  cbn [max_list]. now apply fold_qmax_Forall2.
Qed.

Lemma scaled_ratio (c x y : Q) : ~ c == 0 -> (c * x) / (c * y) == x / y.
Proof.
  intros Hc. unfold Qdiv. rewrite Qinv_mult_distr.
  transitivity ((c * / c) * (x * / y)); [ring|].
  rewrite Qmult_inv_r by assumption. ring.
Qed.

Lemma Qdiv_proper_r (x y : Q) : x == y -> 1 / x == 1 / y.
Proof. intros E. now rewrite E. Qed.

Lemma scaled_fit (c : Q) (b a : wh) :
  ~ c == 0 ->
  min_cols (min_inv (ratio_row (scale_row c b) (scale_row c a)))
  == min_cols (min_inv (ratio_row b a)).
Proof.
  intros Hc. unfold min_cols, min_inv, ratio_row, scale_row. cbn [fst snd].
  pose proof (scaled_ratio c (fst b) (fst a) Hc) as E1.
  pose proof (scaled_ratio c (snd b) (snd a) Hc) as E2.
  apply qmin_proper; apply qmin_proper;
    try assumption; now apply Qdiv_proper_r.
Qed.

Lemma scaled_row_fits (c : Q) (b : wh) (k : list wh) :
  ~ c == 0 ->
  Forall2 Qeq
    (map (fun a => min_cols (min_inv (ratio_row (scale_row c b) a)))
         (map (scale_row c) k))
    (map (fun a => min_cols (min_inv (ratio_row b a))) k).
Proof.
  intros Hc. induction k as [|a k IH]; cbn [map]; constructor;
    [now apply scaled_fit|exact IH].
Qed.

Lemma map_above_Forall2 (t : Q) (l l' : list Q) :
  Forall2 Qeq l l' -> map (above t) l = map (above t) l'.
Proof.
  induction 1 as [|x x' l l' Hx _ IH]; [reflexivity|].
  cbn [map]. now rewrite IH, (above_proper t x x' Hx).
Qed.

(** X8.  The report of [metric] is free of scale: multiplying every box and
    every anchor by the same non-zero factor changes neither the best
    possible recall nor the anchors-above-threshold, and not the error on an
    empty anchor array either. *)
Theorem metric_scale_free (c : Q) (ls_edges k : list wh) (thr : Q) :
  ~ c == 0 ->
  metric (map (scale_row c) ls_edges) thr (Array2 (map (scale_row c) k))
  = metric ls_edges thr (Array2 k).
Proof.
  intros Hc. cbn [metric]. unfold metric_array. rewrite length_map.
  destruct k as [|a0 k]; [reflexivity|].
  cbn [List.length max_axis1]. unfold ratio_metric. rewrite !map_map.
  f_equal. f_equal.
  - f_equal. apply map_ext. intros b.
    apply above_proper, max_list_Forall2, scaled_row_fits, Hc.
  - f_equal. apply map_ext. intros b. f_equal.
    apply map_above_Forall2, scaled_row_fits, Hc.
Qed.

Lemma metric_scale_free_witness :
  metric (map (scale_row (1 # 8)) [(50, 100); (20, 30)]) 4
         (Array2 (map (scale_row (1 # 8)) [(20, 30); (40, 40)]))
  = metric [(50, 100); (20, 30)] 4 (Array2 [(20, 30); (40, 40)]).
Proof. apply metric_scale_free. discriminate. Defined.

Lemma max_list_perm (l l' : list Q) :
  Permutation l l' -> max_list l == max_list l'.
Proof.
  intros P. destruct l as [|x l].
  - apply Permutation_nil in P. now subst.
  - assert (Hl' : l' <> []).
    { intros ->. symmetry in P. now apply Permutation_nil in P. }
    assert (Hl : x :: l <> []) by discriminate.
    apply Qle_antisym; apply max_list_ge.
    + eapply Permutation_in; [exact P|now apply max_list_in].
    + eapply Permutation_in; [symmetry; exact P|now apply max_list_in].
Qed.

Lemma Qsum_perm (l l' : list Q) : Permutation l l' -> Qsum l == Qsum l'.
Proof.
  induction 1 as [|x l l' _ IH|x y l|l1 l2 l3 _ IH1 _ IH2].
  - reflexivity.
  - cbn [Qsum fold_right]. fold (Qsum l) (Qsum l'). now rewrite IH.
  - cbn [Qsum fold_right]. fold (Qsum l). ring.
  - now rewrite IH1.
Qed.

(** X9.  The order of the anchors does not matter to [metric]: on a
    permutation of a non-empty anchor array the best possible recall is the
    same and the anchors-above-threshold is the same number.  Reversing the
    levels or sorting the anchors by area therefore keeps the report. *)
Theorem metric_ignores_anchor_order (ls_edges k k' : list wh) (thr : Q) :
  Permutation k k' ->
  k <> [] ->
  exists bpr aat aat' : Q,
    metric ls_edges thr (Array2 k) = inr (bpr, aat)
    /\ metric ls_edges thr (Array2 k') = inr (bpr, aat')
    /\ aat == aat'.
Proof.
  intros P Hk.
  assert (Hk' : k' <> []).
  { intros ->. symmetry in P. now apply Permutation_nil in P. }
  cbn [metric]. rewrite (metric_array_returns _ _ _ Hk).
  rewrite (metric_array_returns _ _ _ Hk').
  assert (Hrow : forall b,
             Permutation
               (map (fun a => min_cols (min_inv (ratio_row b a))) k)
               (map (fun a => min_cols (min_inv (ratio_row b a))) k'))
    by (intros b; now apply Permutation_map).
  do 3 eexists. split; [reflexivity|]. split.
  - f_equal. f_equal. unfold ratio_metric. rewrite !map_map.
    f_equal. apply map_ext. intros b. symmetry.
    apply above_proper, max_list_perm, Hrow.
  - unfold mean, ratio_metric. rewrite !map_map, !length_map.
    rewrite (Qsum_map_ext _
               (fun b => Qsum (map (above (1 / thr))
                         (map (fun a => min_cols (min_inv (ratio_row b a)))
                              k'))));
      [reflexivity|].
    intros b _. apply Qsum_perm, Permutation_map, Hrow.
Qed.

Lemma metric_ignores_anchor_order_witness :
  exists bpr aat aat' : Q,
    metric [(50, 100); (20, 30)] 4 (Array2 [(20, 30); (40, 40); (60, 90)])
    = inr (bpr, aat)
    /\ metric [(50, 100); (20, 30)] 4
              (Array2 (rev [(20, 30); (40, 40); (60, 90)]))
       = inr (bpr, aat')
    /\ aat == aat'.
Proof.
  apply metric_ignores_anchor_order; [apply Permutation_rev|discriminate].
Defined.

(** ** The mutation of the genetic loop *)

Lemma clip_range (lo hi x : Q) : lo <= hi -> lo <= clip lo hi x <= hi.
Proof. intros H. unfold clip. split_minmax; split; lra. Qed.

Lemma mutation_mask_in_clip (mp s : Q) (rows : nat) (d : draw) :
  Forall in_clip (mutation_mask mp s rows d).
Proof.
  apply Forall_forall. intros r Hr. unfold mutation_mask in Hr.
  apply in_map_iff in Hr as [i [<- _]].
  split; cbn [fst snd]; unfold mutation_entry; apply clip_range; discriminate.
Qed.

Lemma sample_mask_spec (mp s : Q) (rows : nat) (tp rest : list draw)
      (v : list wh) :
  sample_mask mp s rows tp = Some (v, rest) ->
  all_ones v = false /\ Forall in_clip v.
Proof.
  induction tp as [|d tp IH]; cbn; [discriminate|].
  destruct (all_ones (mutation_mask mp s rows d)) eqn:E; [exact IH|].
  intros [= <- _]. split; [exact E|apply mutation_mask_in_clip].
Qed.

Lemma edge_bounded_mutate (x m : Q) :
  0 <= x -> 3 # 10 <= m <= 3 -> edge_bounded x (clip_min 2 (x * m)).
Proof.
  intros Hx [Hlo Hhi]. unfold edge_bounded, clip_min.
  assert ((3 # 10) * x <= x * m) by nra.
  assert (x * m <= 3 * x) by nra.
  split_minmax; repeat split; lra.
Qed.

Lemma mutate_bounded (k v : list wh) :
  List.length v = List.length k ->
  Forall nonneg k -> Forall in_clip v ->
  Forall2 anchor_bounded k (mutate k v).
Proof.
  revert v. induction k as [|a k IH]; intros [|m v] Hlen Hk Hv;
    try discriminate; [constructor|].
  inversion Hk as [|? ? [Ha1 Ha2] Hk']; subst.
  inversion Hv as [|? ? [Hm1 Hm2] Hv']; subst.
  unfold mutate. cbn [combine map fst snd]. constructor.
  - split; now apply edge_bounded_mutate.
  - apply IH; [now injection Hlen|assumption|assumption].
Qed.

(** X10.  The mask a generation ends up with has the shape of the anchors,
    every entry within [0.3, 3.0], and is not the all-ones mask, and at least
    one draw was consumed for it.  For anchors without negative edges, every
    edge [c] of the candidate built from an edge [x] satisfies
    [2 <= c], [0.3 x <= c] and [c <= max(3 x, 2)]. *)
Theorem mutation_is_bounded (k : list wh) (tp rest : list draw) (v : list wh) :
  sample_mask (9 # 10) (1 # 10) (List.length k) tp = Some (v, rest) ->
  List.length v = List.length k
  /\ all_ones v = false
  /\ Forall in_clip v
  /\ (exists used, tp = used ++ rest /\ used <> [])
  /\ (Forall nonneg k -> Forall2 anchor_bounded k (mutate k v)).
Proof.
  intros H.
  pose proof (sample_mask_length _ _ _ _ _ _ H) as Hlen.
  destruct (sample_mask_spec _ _ _ _ _ _ H) as [Hones Hclip].
  split; [exact Hlen|]. split; [exact Hones|]. split; [exact Hclip|].
  split; [eapply sample_mask_suffix, H|].
  intros Hk. now apply mutate_bounded.
Qed.

Lemma mutation_is_bounded_witness :
  exists (v : list wh) (rest : list draw),
    sample_mask (9 # 10) (1 # 10) 2 [draw_idle; draw_up; draw_idle]
    = Some (v, rest)
    /\ all_ones v = false
    /\ Forall in_clip v
    /\ Forall2 anchor_bounded [(100, 1); (0, 50)]
               (mutate [(100, 1); (0, 50)] v).
Proof.
  assert (E : sample_mask (9 # 10) (1 # 10)
                          (List.length [(100, 1); (0, 50)])
                          [draw_idle; draw_up; draw_idle]
              = Some ([(22 # 20, 22 # 20); (22 # 20, 22 # 20)], [draw_idle]))
    by (vm_compute; reflexivity).
  destruct (mutation_is_bounded _ _ _ _ E) as [_ [H1 [H2 [_ H3]]]].
  do 2 eexists. split; [exact E|]. split; [exact H1|]. split; [exact H2|].
  apply H3. repeat constructor; discriminate.
Defined.

(** ** What [kmean_anchors] returns *)

Lemma ret_bind {A B} (m : M A) (k : A -> M B) (w w' : world) (b : B) :
  bind m k w = Ret b w' ->
  exists a w1, m w = Ret a w1 /\ k a w1 = Ret b w'.
Proof.
  unfold bind. destruct (m w) as [a w1|e w1|]; try discriminate.
  intros H. now exists a, w1.
Qed.

Lemma generation_invariant (ls_edges ls_edges0 : list wh) (thr : Q) (n : nat)
      (verbose : bool) (st st' : list wh * Q) (w w' : world) :
  anchor_fitness ls_edges thr (fst st) = inr (snd st) ->
  generation ls_edges ls_edges0 thr n verbose st w = Ret st' w' ->
  anchor_fitness ls_edges thr (fst st') = inr (snd st')
  /\ snd st <= snd st'
  /\ List.length (fst st') = List.length (fst st)
  /\ (fst st' = fst st \/ Forall at_least_2 (fst st')).
Proof.
  intros Hinv H.
  pose proof (generation_monotone _ _ _ _ _ _ _ _ _ H) as Hmono.
  apply generation_returns in H as [v [rest [fg [Hv [Hf ->]]]]].
  split; [|split; [exact Hmono|]].
  - destruct (Qgtb fg (snd st)); [exact Hf|exact Hinv].
  - destruct (Qgtb fg (snd st)); cbn [fst].
    + split; [|right; apply mutate_at_least_2].
      apply mutate_length. eapply sample_mask_length, Hv.
    + split; [reflexivity|now left].
Qed.

(** X11.  The loop keeps its pair consistent: started from anchors [k] and
    their fitness [f], after any number of generations it holds anchors [k']
    of the same shape together with their own fitness [f'], [f <= f'], and
    [k'] is [k] itself or a candidate all of whose edges are at least 2.0. *)
Theorem evolve_keeps_best_consistent
        (ls_edges ls_edges0 : list wh) (thr : Q) (n : nat) (verbose : bool)
        (gen : nat) (k k' : list wh) (f f' : Q) (w w' : world) :
  anchor_fitness ls_edges thr k = inr f ->
  evolve ls_edges ls_edges0 thr n verbose gen (k, f) w = Ret (k', f') w' ->
  anchor_fitness ls_edges thr k' = inr f'
  /\ f <= f'
  /\ List.length k' = List.length k
  /\ (k' = k \/ Forall at_least_2 k').
Proof.
  revert k f w. induction gen as [|gen IH]; intros k f w Hinv H.
  - cbn in H. injection H as <- <- _.
    split; [exact Hinv|]. split; [apply Qle_refl|]. split; [reflexivity|].
    now left.
  - cbn [evolve] in H. apply ret_bind in H as [[k1 f1] [w1 [G H]]].
    destruct (generation_invariant ls_edges ls_edges0 thr n verbose
                (k, f) (k1, f1) w w1 Hinv G)
      as [Hinv1 [Hle1 [Hlen1 Hk1]]]. cbn [fst snd] in *.
    destruct (IH _ _ _ Hinv1 H) as [Hinv' [Hle' [Hlen' Hk']]].
    split; [exact Hinv'|]. split; [lra|]. split; [congruence|].
    destruct Hk' as [->|Hk']; [|now right].
    destruct Hk1 as [->|Hk1]; [now left|now right].
Qed.

Lemma evolve_keeps_best_consistent_witness :
  anchor_fitness [(200, 200)] (1 / 4) [(48400 # 400, 48400 # 400)]
  = inr (48400 # 80000)
  /\ 100 # 200 <= 48400 # 80000
  /\ Forall at_least_2 [(48400 # 400, 48400 # 400)].
Proof.
  assert (E0 : anchor_fitness [(200, 200)] (1 / 4) [(100, 100)] = inr (100 # 200))
    by (vm_compute; reflexivity).
  assert (E : evolve [(200, 200)] [(200, 200)] (1 / 4) 1 false 2
                     ([(100, 100)], 100 # 200)
                     (mkWorld head_small [] [draw_idle; draw_up; draw_up])
              = Ret ([(48400 # 400, 48400 # 400)], 48400 # 80000)
                    (mkWorld head_small [] []))
    by (vm_compute; reflexivity).
  destruct (evolve_keeps_best_consistent _ _ _ _ _ _ _ _ _ _ _ _ E0 E)
    as [H1 [H2 [_ [H3|H3]]]].
  - discriminate H3.
  - split; [exact H1|]. split; [exact H2|exact H3].
Defined.

Lemma print_results_ret (ls_edges0 : list wh) (thr : Q) (n : nat)
      (k k' : list wh) (verbose : bool) (w w' : world) :
  print_results ls_edges0 thr n k verbose w = Ret k' w' ->
  k' = sort_by_area k.
Proof.
  unfold print_results, bind, lift. cbv zeta.
  destruct (metric_x_best (sort_by_area k) ls_edges0) as [e|xb];
    [discriminate|].
  cbn [ret]. destruct verbose; cbn; now intros [= <- _].
Qed.

Lemma sort_by_area_length (k : list wh) :
  List.length (sort_by_area k) = List.length k.
Proof. symmetry. apply Permutation_length, sort_by_area_perm. Qed.

Lemma kmeans_seed_ret (ext : Collaborators) (ls_edges0 ls_edges : list wh)
      (thr : Q) (n : nat) (k : list wh) (w w' : world) :
  kmeans_seed ext ls_edges0 ls_edges thr n w = Ret k w' ->
  List.length k = n.
Proof.
  unfold kmeans_seed. cbv zeta. intros H.
  apply ret_bind in H as [_ [w1 [_ H]]].
  apply ret_bind in H as [kd [w2 [_ H]]].
  apply ret_bind in H as [u [w3 [Hassert H]]].
  apply print_results_ret in H. rewrite H.
  rewrite sort_by_area_length, length_map.
  destruct (List.length (fst kd) =? n)%nat eqn:E; [|discriminate].
  now apply Nat.eqb_eq.
Qed.

Lemma evolve_length (ls_edges ls_edges0 : list wh) (thr : Q) (n : nat)
      (verbose : bool) (gen : nat) :
  forall (st st' : list wh * Q) (w w' : world),
    evolve ls_edges ls_edges0 thr n verbose gen st w = Ret st' w' ->
    List.length (fst st') = List.length (fst st).
Proof.
  induction gen as [|gen IH]; intros st st' w w' H.
  - cbn in H. now injection H as <- _.
  - cbn [evolve] in H. apply ret_bind in H as [st1 [w1 [G H]]].
    rewrite (IH _ _ _ _ H).
    apply generation_returns in G as [v [rest [fg [Hv [_ ->]]]]].
    destruct (Qgtb fg (snd st)); [|reflexivity]. cbn [fst].
    apply mutate_length. eapply sample_mask_length, Hv.
Qed.

Lemma kmean_anchors_ret_shape
        (ext : Collaborators) (dataset : dataset_arg) (n : nat)
        (img_size thr : Q) (gen : nat) (verbose : bool) (w w' : world)
        (k : list wh) :
  kmean_anchors ext dataset n img_size thr gen verbose w = Ret k w' ->
  List.length k = n /\ Sorted area_le k.
Proof.
  unfold kmean_anchors. cbv zeta. intros H.
  apply ret_bind in H as [_ [w1 [_ H]]].
  apply ret_bind in H as [edges [w2 [_ H]]].
  apply ret_bind in H as [k0 [w3 [Hseed H]]].
  apply ret_bind in H as [f [w4 [_ H]]].
  apply ret_bind in H as [kf [w5 [Hev H]]].
  apply print_results_ret in H. subst k.
  split; [|apply sort_by_area_sorted].
  rewrite sort_by_area_length, (evolve_length _ _ _ _ _ _ _ _ _ _ Hev).
  cbn [fst]. eapply kmeans_seed_ret, Hseed.
Qed.

(** X12.  Whenever [kmean_anchors] returns, it returns exactly [n] anchors,
    in ascending order of area. *)
Theorem kmean_anchors_returns_n_sorted
        (ext : Collaborators) (dataset : dataset_arg) (n : nat)
        (img_size thr : Q) (gen : nat) (verbose : bool) (w w' : world)
        (k : list wh) :
  kmean_anchors ext dataset n img_size thr gen verbose w = Ret k w' ->
  List.length k = n /\ Sorted area_le k.
Proof. apply kmean_anchors_ret_shape. Qed.

Lemma kmean_anchors_returns_n_sorted_witness :
  exists (k : list wh) (w' : world),
    kmean_anchors (collaborators_with kmeans_first_points)
                  (Dataset_loaded dataset_thin) 2 640 4 3 true
                  (mkWorld head_small []
                           [draw_up; draw_idle; draw_up; draw_up])
    = Ret k w'
    /\ List.length k = 2%nat /\ Sorted area_le k.
Proof.
  remember (kmean_anchors (collaborators_with kmeans_first_points)
                          (Dataset_loaded dataset_thin) 2 640 4 3 true
                          (mkWorld head_small []
                                   [draw_up; draw_idle; draw_up; draw_up]))
    as r eqn:E.
  assert (Hr : exists k w', r = Ret k w')
    by (subst r; do 2 eexists; vm_compute; reflexivity).
  destruct Hr as [k [w' Hr]]. exists k, w'. split; [exact Hr|].
  rewrite E in Hr. exact (kmean_anchors_returns_n_sorted _ _ _ _ _ _ _ _ _ _ Hr).
Defined.

(** ** Failures of the extraction and of the clustering *)

Lemma flat_map_nil {A B} (f : A -> list B) (l : list A) :
  (forall x, In x l -> f x = []) -> flat_map f l = [].
Proof.
  induction l as [|x l IH]; intros H; [reflexivity|].
  cbn [flat_map]. rewrite (H x (or_introl eq_refl)).
  apply IH. intros y Hy. apply H. now right.
Qed.

Lemma edge_arrays_nil (ext : Collaborators) (ratios : list Q)
      (lbls : list (list label)) :
  (forall ratio lab,
      In lab lbls ->
      poly2rbox ext (map (fun l => map (Qmult ratio) (poly l)) lab) = []) ->
  edge_arrays ext ratios lbls = [].
Proof.
  intros H. unfold edge_arrays. apply flat_map_nil.
  intros [ratio lab] Hin. apply in_combine_r in Hin. cbn [fst snd].
  now rewrite (H ratio lab Hin).
Qed.

(** X13.  When [poly2rbox] finds no box in any image, at any scale, both
    entry points raise [ValueError] from [np.concatenate]: [check_anchors]
    before it has logged or changed anything, [kmean_anchors] after printing
    the labels and before any clustering or draw. *)
Theorem no_boxes_raise_ValueError
        (ext : Collaborators) (dataset : Dataset) (thr imgsz : Q)
        (n gen : nat) (verbose : bool) (w : world) :
  (forall ratio lab,
      In lab (labels dataset) ->
      poly2rbox ext (map (fun l => map (Qmult ratio) (poly l)) lab) = []) ->
  check_anchors ext dataset thr imgsz w = Exc ValueError w
  /\ kmean_anchors ext (Dataset_loaded dataset) n imgsz thr gen verbose w
     = Exc ValueError
           (mkWorld (head w)
                    (log w ++ [Enter_kmean_anchors n gen; Print_labels])
                    (tape w)).
Proof.
  intros H. split.
  - unfold check_anchors, bind, get_head, check_edges. cbv zeta.
    now rewrite (edge_arrays_nil ext _ _ H).
  - unfold kmean_anchors, bind, emit, collect_edges, bind, emit. cbv zeta.
    cbn [ret head log tape shapes labels].
    rewrite (edge_arrays_nil ext _ _ H). cbn [np_concatenate lift raise].
    now rewrite <- app_assoc.
Qed.

Lemma no_boxes_raise_ValueError_witness :
  check_anchors (collaborators_with kmeans_first_points) dataset_unlabelled
                4 640 (world_of head_small)
  = Exc ValueError (world_of head_small)
  /\ kmean_anchors (collaborators_with kmeans_first_points)
                   (Dataset_loaded dataset_unlabelled) 9 640 4 1000 true
                   (world_of head_small)
     = Exc ValueError
           (mkWorld head_small [Enter_kmean_anchors 9 1000; Print_labels] []).
Proof.
  apply (no_boxes_raise_ValueError
           (collaborators_with kmeans_first_points) dataset_unlabelled
           4 640 9 1000 true (world_of head_small)).
  intros ratio lab [<-|[<-|[]]]; reflexivity.
Defined.

(** X14.  Once the edges are collected, a failure of the clustering leaves
    [kmean_anchors] as it is: the exception scipy raises is raised, and a
    result with another number of centroids than [n] raises
    [AssertionError]; in both cases after the log line of line 159 and
    without any draw. *)
Theorem clustering_failures_propagate
        (ext : Collaborators) (dataset : dataset_arg) (n : nat)
        (img_size thr : Q) (gen : nat) (verbose : bool) (w w1 : world)
        (ls_edges0 ls_edges : list wh) :
  let s := np_std0 ext ls_edges in
  let whitened := map (fun b => (fst b / fst s, snd b / snd s)) ls_edges in
  collect_edges ext dataset img_size (entered n gen w)
  = Ret (ls_edges0, ls_edges) w1 ->
  (forall e, scipy_kmeans ext whitened n 30 = inl e ->
             kmean_anchors ext dataset n img_size thr gen verbose w
             = Exc e (clustering n (List.length ls_edges) w1))
  /\
  (forall centroids dist,
      scipy_kmeans ext whitened n 30 = inr (centroids, dist) ->
      List.length centroids <> n ->
      kmean_anchors ext dataset n img_size thr gen verbose w
      = Exc AssertionError (clustering n (List.length ls_edges) w1)).
Proof.
  intros s whitened Hedges.
  assert (Hstart : forall r,
             kmeans_seed ext ls_edges0 ls_edges (1 / thr) n w1 = r ->
             (forall k w2, r <> Ret k w2) ->
             kmean_anchors ext dataset n img_size thr gen verbose w
             = match r with
               | Ret _ _ => Starved
               | Exc e w2 => Exc e w2
               | Starved => Starved
               end).
  { intros r Hr Hnot. unfold kmean_anchors. unfold bind at 1.
    change (emit (Enter_kmean_anchors n gen) w) with (Ret tt (entered n gen w)).
    cbv beta iota zeta. unfold bind at 1. rewrite Hedges. cbn [fst snd].
    unfold bind at 1. rewrite Hr.
    destruct r as [k w2|e w2|]; [|reflexivity..].
    exfalso. now apply (Hnot k w2). }
  split.
  - intros e He.
    rewrite (Hstart (Exc e (clustering n (List.length ls_edges) w1)));
      [reflexivity| |discriminate].
    unfold kmeans_seed, bind, emit. cbv zeta. fold s. fold whitened.
    now rewrite He.
  - intros centroids dist Hkm Hlen.
    rewrite (Hstart (Exc AssertionError
                         (clustering n (List.length ls_edges) w1)));
      [reflexivity| |discriminate].
    unfold kmeans_seed, bind, emit. cbv zeta. fold s. fold whitened.
    rewrite Hkm. cbn [lift ret fst].
    apply Nat.eqb_neq in Hlen. now rewrite Hlen.
Qed.

Lemma clustering_failures_propagate_witness :
  (exists w2 : world,
      kmean_anchors (collaborators_with kmeans_raises)
                    (Dataset_loaded dataset_200) 2 640 4 10 false
                    (world_of head_small)
      = Exc ValueError w2 /\ tape w2 = [])
  /\ (exists w2 : world,
         kmean_anchors (collaborators_with kmeans_first_points)
                       (Dataset_loaded dataset_200) 5 640 4 10 false
                       (world_of head_small)
         = Exc AssertionError w2 /\ tape w2 = []).
Proof.
  split.
  - edestruct (clustering_failures_propagate
                 (collaborators_with kmeans_raises)
                 (Dataset_loaded dataset_200) 2 640 4 10 false
                 (world_of head_small)) as [H _].
    + vm_compute. reflexivity.
    + eexists. split; [apply H; reflexivity|reflexivity].
  - edestruct (clustering_failures_propagate
                 (collaborators_with kmeans_first_points)
                 (Dataset_loaded dataset_200) 5 640 4 10 false
                 (world_of head_small)) as [_ H].
    + vm_compute. reflexivity.
    + eexists. split; [eapply H; [reflexivity|discriminate]|reflexivity].
Defined.

(** ** The decision of [check_anchors] on a candidate *)

(** X15.  On a poor fit, when the optimizer returns anchors whose recall is
    not strictly greater than the current one, [check_anchors] discards them:
    it returns with the head it started with and logs that the original
    anchors are kept. *)
Theorem check_anchors_discards_candidate
        (ext : Collaborators) (dataset : Dataset) (thr imgsz : Q)
        (w w2 : world) (ls_edges : list wh) (current : list (list wh))
        (k : list wh) (bpr aat new_bpr new_aat : Q) :
  check_edges ext dataset imgsz = inr ls_edges ->
  pixel_anchors (head w) = inr current ->
  metric ls_edges thr (Array2 (concat current)) = inr (bpr, aat) ->
  bpr <= 98 # 100 ->
  kmean_anchors ext (Dataset_loaded dataset)
                (List.length (concat (anchors (head w)))) imgsz thr 1000 false
                (mkWorld (head w) (log w ++ [Log_poor_fit aat bpr]) (tape w))
  = Ret k w2 ->
  metric ls_edges thr (Array2 k) = inr (new_bpr, new_aat) ->
  new_bpr <= bpr ->
  check_anchors ext dataset thr imgsz w
  = Ret tt (mkWorld (head w) (log w2 ++ [Log_original_better]) (tape w2)).
Proof.
  intros Hedges Hpix Hmetric Hpoor Hkm Hnew Hle.
  assert (Hhead : head w2 = head w).
  { apply (kmean_anchors_head_kept ext (Dataset_loaded dataset)
             (List.length (concat (anchors (head w)))) imgsz thr 1000 false
             (mkWorld (head w) (log w ++ [Log_poor_fit aat bpr]) (tape w)) w2).
    now rewrite Hkm. }
  unfold check_anchors, bind, get_head. rewrite Hedges. cbn [lift ret].
  rewrite Hpix. cbn [lift ret]. rewrite Hmetric. cbn [lift ret fst snd].
  apply Qgtb_false in Hpoor. rewrite Hpoor.
  unfold emit at 1. unfold try_except, bind. rewrite Hkm. cbn [ret].
  rewrite Hnew. cbn [lift ret fst].
  apply Qgtb_false in Hle. rewrite Hle.
  unfold emit. now rewrite Hhead.
Qed.

Lemma check_anchors_discards_candidate_witness :
  exists w' : world,
    check_anchors (collaborators_with kmeans_unit_points) dataset_200 4 640
                  (mkWorld head_small [] (repeat draw_up 1000))
    = Ret tt w'
    /\ head w' = head_small
    /\ last_error (log w') = Some Log_original_better.
Proof.
  remember (mkWorld head_small [] (repeat draw_up 1000)) as w0 eqn:E0.
  remember (kmean_anchors (collaborators_with kmeans_unit_points)
              (Dataset_loaded dataset_200)
              (List.length (concat (anchors (head w0)))) 640 4 1000 false
              (mkWorld (head w0) (log w0 ++ [Log_poor_fit (0 # 3) (0 # 3)])
                       (tape w0))) as r eqn:Er.
  assert (Hr : exists w2, r = Ret [(1 * 1, 1 * 1); (1 * 1, 1 * 1)] w2).
  { subst r w0. eexists. vm_compute. reflexivity. }
  destruct Hr as [w2 Hr]. rewrite Er in Hr.
  pose proof (check_anchors_discards_candidate
                (collaborators_with kmeans_unit_points) dataset_200 4 640
                w0 w2
                [(81920000 # 409600, 81920000 # 409600);
                 (81920000 # 409600, 81920000 # 409600);
                 (81920000 # 409600, 81920000 # 409600)]
                [[(1 * 8, 1 * 8)]; [(2 * 16, 2 * 16)]]
                [(1 * 1, 1 * 1); (1 * 1, 1 * 1)]
                (0 # 3) (0 # 3) (0 # 3) (0 # 3)) as H.
  eexists. split; [apply H|].
  - subst w0. vm_compute. reflexivity.
  - subst w0. vm_compute. reflexivity.
  - vm_compute. reflexivity.
  - discriminate.
  - exact Hr.
  - vm_compute. reflexivity.
  - discriminate.
  - cbn [head log]. split; [now subst w0|apply last_error_app].
Defined.

(** ** Storing anchors in the head and reading them back *)

Lemma regroup_length (shape : list (list wh)) (k : list wh) :
  List.length (regroup shape k) = List.length shape.
Proof.
  revert k. induction shape as [|l shape IH]; intros k; cbn; [reflexivity|].
  now rewrite IH.
Qed.

Lemma regroup_concat (shape : list (list wh)) :
  regroup shape (concat shape) = shape.
Proof.
  induction shape as [|l shape IH]; cbn [regroup concat]; [reflexivity|].
  rewrite firstn_app, Nat.sub_diag, firstn_all, firstn_O, app_nil_r.
  rewrite skipn_app, Nat.sub_diag, skipn_all, skipn_O. cbn [app].
  now rewrite IH.
Qed.

Lemma concat_regroup (shape : list (list wh)) :
  forall k : list wh,
    List.length k = List.length (concat shape) ->
    concat (regroup shape k) = k.
Proof.
  induction shape as [|l shape IH]; intros k Hlen; cbn [regroup concat].
  - destruct k; [reflexivity|discriminate].
  - cbn [concat] in Hlen. rewrite length_app in Hlen.
    rewrite IH; [apply firstn_skipn|].
    rewrite length_skipn. lia.
Qed.

Lemma broadcast_same_length {A B C} (f : A -> B -> C) (xs : list A)
      (ys : list B) :
  List.length xs = List.length ys ->
  broadcast f xs ys = inr (map (fun p => f (fst p) (snd p)) (combine xs ys)).
Proof.
  intros H. unfold broadcast. apply Nat.eqb_eq in H. now rewrite H.
Qed.

Lemma divide_then_multiply (levels : list (list wh)) :
  forall strides : list Q,
    List.length levels = List.length strides ->
    Forall (fun s => ~ s == 0) strides ->
    Forall2 (Forall2 wh_eq)
      (map (fun p => map (fun a => (fst a * snd p, snd a * snd p)) (fst p))
           (combine
              (map (fun p => map (fun a => (fst a / snd p, snd a / snd p))
                                 (fst p))
                   (combine levels strides))
              strides))
      levels.
Proof.
  induction levels as [|l levels IH]; intros [|s strides] Hlen Hnz;
    try discriminate; [constructor|].
  inversion Hnz as [|? ? Hs Hnz']; subst.
  cbn [combine map fst snd]. constructor.
  - clear -Hs. induction l as [|a l IHl]; cbn [map]; constructor; [|exact IHl].
    split; cbn [fst snd]; field; exact Hs.
  - apply IH; [now injection Hlen|exact Hnz'].
Qed.

Lemma Forall2_concat {A B} (R : A -> B -> Prop) (xss : list (list A))
      (yss : list (list B)) :
  Forall2 (Forall2 R) xss yss -> Forall2 R (concat xss) (concat yss).
Proof.
  induction 1 as [|xs ys xss yss H _ IH]; cbn [concat]; [constructor|].
  now apply Forall2_app.
Qed.

(** X16.  What line 76 stores reads back at line 61: for a head whose strides
    are as many as its levels and none zero, and [k] with as many rows as the
    head has anchors, [k] viewed as the anchor tensor and divided by the
    strides has the levels of the head, and multiplying it by the strides
    again gives the rows of [k], as numbers. *)
Theorem stored_anchors_read_back (m : Detect) (k : list wh) :
  List.length k = List.length (concat (anchors m)) ->
  List.length (anchors m) = List.length (stride m) ->
  Forall (fun s => ~ s == 0) (stride m) ->
  exists shaped scaled px : list (list wh),
    view_as (anchors m) k = inr shaped
    /\ broadcast (fun level s => map (fun a => (fst a / s, snd a / s)) level)
                 shaped (stride m)
       = inr scaled
    /\ List.length scaled = List.length (anchors m)
    /\ pixel_anchors (mkDetect scaled (stride m)) = inr px
    /\ Forall2 wh_eq (concat px) k.
Proof.
  intros Hk Hlen Hnz.
  pose (shaped := regroup (anchors m) k).
  assert (Hshaped : List.length shaped = List.length (stride m))
    by (unfold shaped; now rewrite regroup_length).
  pose (scaled :=
          map (fun p => map (fun a => (fst a / snd p, snd a / snd p)) (fst p))
              (combine shaped (stride m))).
  assert (Hscaled : List.length scaled = List.length (stride m)).
  { unfold scaled. rewrite length_map, length_combine, Hshaped.
    apply Nat.min_id. }
  exists shaped, scaled. eexists.
  split; [unfold view_as; apply Nat.eqb_eq in Hk; now rewrite Hk|].
  split; [now rewrite broadcast_same_length by assumption|].
  split; [exact (eq_trans Hscaled (eq_sym Hlen))|].
  split.
  - unfold pixel_anchors. cbn [anchors stride].
    now rewrite broadcast_same_length by assumption.
  - rewrite <- (concat_regroup (anchors m) k Hk). fold shaped.
    apply Forall2_concat. now apply divide_then_multiply.
Qed.

Lemma stored_anchors_read_back_witness :
  exists shaped scaled px : list (list wh),
    view_as (anchors head_descending) [(8, 8); (16, 8); (32, 48); (64, 64)]
    = inr shaped
    /\ broadcast (fun level s => map (fun a => (fst a / s, snd a / s)) level)
                 shaped [16; 8]
       = inr scaled
    /\ List.length scaled = 2%nat
    /\ pixel_anchors (mkDetect scaled [16; 8]) = inr px
    /\ Forall2 wh_eq (concat px) [(8, 8); (16, 8); (32, 48); (64, 64)].
Proof.
  apply (stored_anchors_read_back
           head_descending [(8, 8); (16, 8); (32, 48); (64, 64)]).
  - reflexivity.
  - reflexivity.
  - repeat constructor; discriminate.
Defined.

(** X17.  Flattening the anchor tensor and viewing the rows as the tensor
    again, as lines 62 and 75 do, gives the tensor back; and rows viewed as
    the tensor flatten to the same rows, while a number of rows other than
    the number of anchors is refused. *)
Theorem view_as_round_trip (shape : list (list wh)) (k : list wh) :
  view_as shape (concat shape) = inr shape
  /\ (List.length k = List.length (concat shape) ->
      exists shaped, view_as shape k = inr shaped
                     /\ concat shaped = k
                     /\ List.length shaped = List.length shape)
  /\ (List.length k <> List.length (concat shape) ->
      view_as shape k = inl RuntimeError).
Proof.
  unfold view_as. split; [|split].
  - now rewrite Nat.eqb_refl, regroup_concat.
  - intros H. exists (regroup shape k).
    pose proof H as Hb. apply Nat.eqb_eq in Hb. rewrite Hb.
    split; [reflexivity|]. split; [now apply concat_regroup|].
    apply regroup_length.
  - intros H. apply Nat.eqb_neq in H. now rewrite H.
Qed.

Lemma view_as_round_trip_witness :
  (exists shaped,
      view_as (anchors head_mixed) [(1, 2); (3, 4); (5, 6); (7, 8)]
      = inr shaped
      /\ concat shaped = [(1, 2); (3, 4); (5, 6); (7, 8)]
      /\ List.length shaped = 2%nat)
  /\ view_as (anchors head_mixed) [(1, 2); (3, 4); (5, 6)] = inl RuntimeError.
Proof.
  split.
  - apply (proj1 (proj2 (view_as_round_trip
                           (anchors head_mixed)
                           [(1, 2); (3, 4); (5, 6); (7, 8)]))).
    reflexivity.
  - apply (proj2 (proj2 (view_as_round_trip
                           (anchors head_mixed) [(1, 2); (3, 4); (5, 6)]))).
    discriminate.
Defined.

Lemma scaled_levels_length (levels : list (list wh)) :
  forall strides : list Q,
    List.length levels = List.length strides ->
    List.length
      (concat (map (fun p => map (fun a => (fst a / snd p, snd a / snd p))
                                 (fst p))
                   (combine levels strides)))
    = List.length (concat levels).
Proof.
  induction levels as [|l levels IH]; intros [|s strides] Hlen;
    try discriminate; [reflexivity|].
  cbn [combine map concat fst snd]. rewrite !length_app, length_map.
  rewrite IH; [reflexivity|now injection Hlen].
Qed.

Lemma metric_array_nonempty (ls_edges k : list wh) (thr : Q) (r : Q * Q) :
  metric ls_edges thr (Array2 k) = inr r -> k <> [].
Proof. intros H ->. discriminate H. Qed.

(** X18.  On a poor fit, when the optimizer returns anchors whose recall is
    strictly greater than the current one and the head has as many strides as
    levels, [check_anchors] adopts them: it returns, the head holds the
    optimizer's rows viewed as the anchor tensor and divided by the strides,
    with the levels in that order or reversed by [check_anchor_order], the
    strides are kept and the last log line reports the saving. *)
Theorem check_anchors_adopts_candidate
        (ext : Collaborators) (dataset : Dataset) (thr imgsz : Q)
        (w w2 : world) (ls_edges : list wh) (current : list (list wh))
        (k : list wh) (bpr aat new_bpr new_aat : Q) :
  check_edges ext dataset imgsz = inr ls_edges ->
  pixel_anchors (head w) = inr current ->
  metric ls_edges thr (Array2 (concat current)) = inr (bpr, aat) ->
  bpr <= 98 # 100 ->
  kmean_anchors ext (Dataset_loaded dataset)
                (List.length (concat (anchors (head w)))) imgsz thr 1000 false
                (mkWorld (head w) (log w ++ [Log_poor_fit aat bpr]) (tape w))
  = Ret k w2 ->
  metric ls_edges thr (Array2 k) = inr (new_bpr, new_aat) ->
  bpr < new_bpr ->
  List.length (anchors (head w)) = List.length (stride (head w)) ->
  exists (scaled : list (list wh)) (w' : world),
    check_anchors ext dataset thr imgsz w = Ret tt w'
    /\ broadcast (fun level s => map (fun a => (fst a / s, snd a / s)) level)
                 (regroup (anchors (head w)) k) (stride (head w))
       = inr scaled
    /\ (anchors (head w') = scaled \/ anchors (head w') = rev scaled)
    /\ stride (head w') = stride (head w)
    /\ last_error (log w') = Some Log_saved
    /\ tape w' = tape w2.
Proof.
  intros Hedges Hpix Hmetric Hpoor Hkm Hnew Hbetter Hlen.
  destruct (kmean_anchors_ret_shape _ _ _ _ _ _ _ _ _ _ Hkm)
    as [Hk _].
  pose proof (metric_array_nonempty _ _ _ _ Hnew) as Hkne.
  pose (shaped := regroup (anchors (head w)) k).
  assert (Hshaped : List.length shaped = List.length (stride (head w)))
    by (unfold shaped; now rewrite regroup_length).
  pose (scaled :=
          map (fun p => map (fun a => (fst a / snd p, snd a / snd p)) (fst p))
              (combine shaped (stride (head w)))).
  assert (Hscaled : List.length scaled = List.length (anchors (head w))).
  { unfold scaled. rewrite length_map, length_combine, Hshaped, Nat.min_id.
    now symmetry. }
  assert (Hb : broadcast
                 (fun level s => map (fun a => (fst a / s, snd a / s)) level)
                 shaped (stride (head w)) = inr scaled)
    by (now rewrite broadcast_same_length by assumption).
  assert (Hcs : concat scaled <> []).
  { intros E. apply Hkne. apply length_zero_iff_nil.
    rewrite <- (concat_regroup (anchors (head w)) k Hk). fold shaped.
    rewrite <- (scaled_levels_length shaped (stride (head w)) Hshaped).
    fold scaled. now rewrite E. }
  assert (Hst : stride (head w) <> []).
  { intros E. apply Hcs. unfold scaled. rewrite E.
    now rewrite combine_nil. }
  pose (w3 := mkWorld (mkDetect scaled (stride (head w))) (log w2) (tape w2)).
  assert (Hh : head w2 = head w).
  { apply (kmean_anchors_head_kept ext (Dataset_loaded dataset)
             (List.length (concat (anchors (head w)))) imgsz thr 1000 false
             (mkWorld (head w) (log w ++ [Log_poor_fit aat bpr]) (tape w))
             w2).
    now rewrite Hkm. }
  assert (Hrun : check_anchors ext dataset thr imgsz w
                 = bind check_anchor_order (fun _ => emit Log_saved) w3).
  { unfold check_anchors. unfold bind at 1. unfold get_head at 1.
    unfold bind at 1. rewrite Hedges. cbn [lift ret].
    unfold bind at 1. rewrite Hpix. cbn [lift ret].
    unfold bind at 1. rewrite Hmetric. cbn [lift ret fst snd].
    apply Qgtb_false in Hpoor. rewrite Hpoor.
    unfold bind at 1. unfold emit at 1.
    unfold bind at 1. unfold try_except. unfold bind at 1.
    rewrite Hkm. cbn [ret].
    unfold bind at 1. rewrite Hnew. cbn [lift ret fst].
    apply Qgtb_true in Hbetter. rewrite Hbetter.
    cbn [rows_of]. unfold view_as. apply Nat.eqb_eq in Hk. rewrite Hk.
    unfold bind at 1. cbn [lift ret]. fold shaped.
    unfold bind at 1. rewrite Hb. cbn [lift ret].
    apply Nat.eqb_eq in Hscaled. rewrite Hscaled.
    unfold bind at 1. unfold set_anchors. rewrite Hh. reflexivity. }
  rewrite Hrun. unfold bind.
  destruct (proj2 (check_anchor_order_cases w3) Hcs Hst) as [Ho|Ho];
    rewrite Ho.
  - exists scaled, (mkWorld (head w3) (log w3 ++ [Log_saved]) (tape w3)).
    split; [reflexivity|]. split; [exact Hb|].
    cbn. split; [now left|]. split; [reflexivity|].
    split; [apply last_error_app|reflexivity].
  - exists scaled,
      (mkWorld (mkDetect (rev scaled) (stride (head w)))
               ((log w2 ++ [Log_reversing]) ++ [Log_saved]) (tape w2)).
    split; [reflexivity|]. split; [exact Hb|].
    cbn. split; [now right|]. split; [reflexivity|].
    split; [apply last_error_app|reflexivity].
Qed.

Lemma check_anchors_adopts_candidate_witness :
  exists (scaled : list (list wh)) (w' : world),
    check_anchors (collaborators_with kmeans_first_points) dataset_200 4 640
                  (mkWorld head_small [] (repeat draw_up 1000))
    = Ret tt w'
    /\ List.length scaled = 2%nat
    /\ (anchors (head w') = scaled \/ anchors (head w') = rev scaled)
    /\ stride (head w') = [8; 16]
    /\ last_error (log w') = Some Log_saved.
Proof.
  edestruct (check_anchors_adopts_candidate
               (collaborators_with kmeans_first_points) dataset_200 4 640
               (mkWorld head_small [] (repeat draw_up 1000)))
    as [scaled [w' [Hrun [Hb [Ha [Hs [Hl _]]]]]]].
  - vm_compute. reflexivity.
  - vm_compute. reflexivity.
  - vm_compute. reflexivity.
  - discriminate.
  - vm_compute. reflexivity.
  - vm_compute. reflexivity.
  - reflexivity.
  - reflexivity.
  - exists scaled, w'. split; [exact Hrun|].
    split; [|split; [exact Ha|split; [exact Hs|exact Hl]]].
    vm_compute in Hb. injection Hb as <-. reflexivity.
Defined.

(** ** The small-object warning and the filter *)

Lemma small_or_large (b : wh) : any_at_least_5 b = false -> any_below_5 b = true.
Proof.
  unfold any_at_least_5, any_below_5. intros H.
  apply orb_false_iff in H as [H _].
  apply orb_true_iff. left. unfold Qltb, Qgtb. now rewrite H.
Qed.

Lemma not_small_is_large (b : wh) :
  any_below_5 b = false -> any_at_least_5 b = true.
Proof.
  unfold any_at_least_5, any_below_5, Qltb. intros H.
  apply orb_false_iff in H as [H _]. apply Qgtb_false in H.
  apply orb_true_iff. left. now apply Qle_bool_iff.
Qed.

Lemma dropped_are_counted (l : list wh) :
  (List.length l
   <= List.length (filter_edges l) + List.length (filter any_below_5 l))%nat.
Proof.
  unfold filter_edges. induction l as [|b l IH]; [apply Nat.le_refl|].
  cbn [filter]. destruct (any_at_least_5 b) eqn:E.
  - destruct (any_below_5 b); cbn [List.length]; lia.
  - rewrite (small_or_large b E). cbn [List.length]. lia.
Qed.

Lemma nothing_small_nothing_dropped (l : list wh) :
  filter any_below_5 l = [] -> filter_edges l = l.
Proof.
  unfold filter_edges. induction l as [|b l IH]; [reflexivity|].
  cbn [filter]. destruct (any_below_5 b) eqn:E; [discriminate|].
  intros H. rewrite (not_small_is_large b E). now rewrite IH.
Qed.

(** X19.  The count of the small-object warning of line 150 covers every box
    the filter of line 152 drops: the unfiltered boxes are at most the
    filtered ones plus the count.  The warning is the last line logged exactly
    when the count is not zero, and when it is zero nothing is dropped. *)
Theorem small_object_warning_covers_dropped
        (ext : Collaborators) (dataset : dataset_arg) (img_size : Q)
        (w w' : world) (ls_edges0 ls_edges : list wh) :
  collect_edges ext dataset img_size w = Ret (ls_edges0, ls_edges) w' ->
  let i := List.length (filter any_below_5 ls_edges0) in
  (List.length ls_edges0 <= List.length ls_edges + i)%nat
  /\ log w'
     = log w ++ [Print_labels; Print_edges ls_edges0]
             ++ (if (i =? 0)%nat then []
                 else [Log_small_objects i (List.length ls_edges0)])
  /\ (i = 0%nat -> ls_edges = ls_edges0).
Proof.
  intros H i.
  pose proof (collect_edges_filtered _ _ _ _ _ _ _ H) as Hf.
  split; [subst ls_edges; apply dropped_are_counted|]. split.
  - revert H. unfold collect_edges, bind, emit, lift, ret, raise.
    destruct dataset as [p|d];
      [destruct (load_dataset ext p) as [e|ds]; [discriminate|]|];
      (destruct (np_concatenate _) as [e|l]; [discriminate|]);
      (destruct (List.length (filter any_below_5 l) =? 0)%nat eqn:E;
       intros [= <- _ <-]; subst i; rewrite E; cbn [log];
       now rewrite <- !app_assoc).
  - intros Hi. subst ls_edges. apply nothing_small_nothing_dropped.
    now apply length_zero_iff_nil.
Qed.

Lemma small_object_warning_covers_dropped_witness :
  exists (ls_edges0 ls_edges : list wh) (w' : world),
    collect_edges (collaborators_with kmeans_first_points)
                  (Dataset_loaded dataset_thin) 640 (world_of head_small)
    = Ret (ls_edges0, ls_edges) w'
    /\ List.length ls_edges0 = 3%nat
    /\ List.length ls_edges = 2%nat
    /\ last_error (log w') = Some (Log_small_objects 3 3).
Proof.
  edestruct (small_object_warning_covers_dropped
               (collaborators_with kmeans_first_points)
               (Dataset_loaded dataset_thin) 640 (world_of head_small))
    as [_ [Hlog _]].
  - vm_compute. reflexivity.
  - do 3 eexists. split; [vm_compute; reflexivity|].
    split; [reflexivity|]. split; [reflexivity|].
    rewrite Hlog. reflexivity.
Defined.

(** ** A failure of the optimizer inside [check_anchors] *)

(** X20.  After a failure of the optimizer on a poor fit, when the filtered
    boxes are neither as many as the levels nor one, and the head has more
    than one level, [check_anchors] raises [RuntimeError] from the call of
    [metric] on the three-dimensional anchor tensor: the failure of the
    optimizer was logged last and the head is the one it started with. *)
Theorem optimizer_failure_escapes_check_anchors
        (ext : Collaborators) (dataset : Dataset) (thr imgsz : Q)
        (w w2 : world) (ls_edges : list wh) (current : list (list wh))
        (bpr aat : Q) (e : exn) :
  check_edges ext dataset imgsz = inr ls_edges ->
  pixel_anchors (head w) = inr current ->
  metric ls_edges thr (Array2 (concat current)) = inr (bpr, aat) ->
  bpr <= 98 # 100 ->
  kmean_anchors ext (Dataset_loaded dataset)
                (List.length (concat (anchors (head w)))) imgsz thr 1000 false
                (mkWorld (head w) (log w ++ [Log_poor_fit aat bpr]) (tape w))
  = Exc e w2 ->
  List.length ls_edges <> List.length current ->
  List.length ls_edges <> 1%nat ->
  List.length current <> 1%nat ->
  exists w' : world,
    check_anchors ext dataset thr imgsz w = Exc RuntimeError w'
    /\ head w' = head w
    /\ last_error (log w') = Some (Log_error e).
Proof.
  intros Hedges Hpix Hmetric Hpoor Hkm Hne H1 H2.
  exists (mkWorld (head w2) (log w2 ++ [Log_error e]) (tape w2)).
  split; [|split].
  - eapply check_anchors_optimizer_failure_reraises; eassumption.
  - cbn [head].
    apply (kmean_anchors_head_kept ext (Dataset_loaded dataset)
             (List.length (concat (anchors (head w)))) imgsz thr 1000 false
             (mkWorld (head w) (log w ++ [Log_poor_fit aat bpr]) (tape w))
             w2).
    now rewrite Hkm.
  - cbn [log]. apply last_error_app.
Qed.

Lemma optimizer_failure_escapes_check_anchors_witness :
  exists w' : world,
    check_anchors (collaborators_with kmeans_first_points) dataset_200 4 640
                  (mkWorld (mkDetect [[(1, 1); (2, 2)]; [(1, 1); (2, 2)]]
                                     [8; 16]) [] [])
    = Exc RuntimeError w'
    /\ head w' = mkDetect [[(1, 1); (2, 2)]; [(1, 1); (2, 2)]] [8; 16]
    /\ last_error (log w') = Some (Log_error AssertionError).
Proof.
  edestruct (optimizer_failure_escapes_check_anchors
               (collaborators_with kmeans_first_points) dataset_200 4 640
               (mkWorld (mkDetect [[(1, 1); (2, 2)]; [(1, 1); (2, 2)]]
                                  [8; 16]) [] []))
    as [w' H].
  - vm_compute. reflexivity.
  - vm_compute. reflexivity.
  - vm_compute. reflexivity.
  - discriminate.
  - vm_compute. reflexivity.
  - discriminate.
  - discriminate.
  - discriminate.
  - exists w'. exact H.
Defined.

(** ** Fitness against recall, and the report *)

Lemma fit_le_1 (b a : wh) : min_cols (min_inv (ratio_row b a)) <= 1.
Proof.
  unfold min_cols, min_inv, ratio_row. cbn [fst snd].
  pose proof (min_inv_le_1 (fst b / fst a)).
  match goal with
  | |- qmin ?x ?y <= 1 => destruct (qmin_cases x y) as [[L ->]|[L ->]]
  end; lra.
Qed.

Lemma best_le_1 (b : wh) (k : list wh) :
  k <> [] ->
  max_list (map (fun a => min_cols (min_inv (ratio_row b a))) k) <= 1.
Proof.
  intros Hk.
  assert (Hne : map (fun a => min_cols (min_inv (ratio_row b a))) k <> [])
    by (destruct k; [congruence|discriminate]).
  apply max_list_in in Hne. apply in_map_iff in Hne as [a [<- _]].
  apply fit_le_1.
Qed.

(** X21.  For every box collection and every non-empty anchor set, the
    fitness of the genetic loop at the inverted threshold [1/thr] never
    exceeds the best possible recall [metric] reports at the ratio [thr]: a
    box adds its best fit, at most 1, to the fitness only when it counts for
    the recall. *)
Theorem fitness_at_most_recall (ls_edges k : list wh) (thr : Q) :
  k <> [] ->
  exists f bpr aat : Q,
    anchor_fitness ls_edges (1 / thr) k = inr f
    /\ metric ls_edges thr (Array2 k) = inr (bpr, aat)
    /\ f <= bpr.
Proof.
  intros Hk. cbn [metric]. rewrite (metric_array_returns _ _ _ Hk).
  unfold anchor_fitness, metric_x_best.
  destruct k as [|a0 k]; [congruence|]. cbn [List.length max_axis1].
  do 3 eexists. split; [reflexivity|]. split; [reflexivity|].
  apply mean_map_le. intros best Hbest.
  apply in_map_iff in Hbest as [row [<- Hrow]].
  unfold ratio_metric in Hrow. apply in_map_iff in Hrow as [b [<- _]].
  pose proof (best_le_1 b (a0 :: k) Hk) as H1.
  unfold above, indicator. destruct (Qgtb _ _); lra.
Qed.

Lemma fitness_at_most_recall_witness :
  exists f bpr aat : Q,
    anchor_fitness [(50, 100); (20, 30); (1, 1)] (1 / 4)
                   [(25, 40); (60, 90)] = inr f
    /\ metric [(50, 100); (20, 30); (1, 1)] 4 (Array2 [(25, 40); (60, 90)])
       = inr (bpr, aat)
    /\ f <= bpr.
Proof.
  apply (fitness_at_most_recall
           [(50, 100); (20, 30); (1, 1)] [(25, 40); (60, 90)] 4).
  discriminate.
Defined.

(** X22.  [print_results] raises [IndexError] on an empty anchor array and
    changes nothing; on a non-empty one it returns the same anchors in
    ascending order of area, leaves the head and the draws alone, and logs
    one report line when verbose and nothing otherwise. *)
Theorem print_results_sorts (ls_edges0 : list wh) (thr : Q) (n : nat)
        (k : list wh) (verbose : bool) (w : world) :
  (k = [] -> print_results ls_edges0 thr n k verbose w = Exc IndexError w)
  /\
  (k <> [] ->
   exists w' : world,
     print_results ls_edges0 thr n k verbose w = Ret (sort_by_area k) w'
     /\ Permutation k (sort_by_area k)
     /\ Sorted area_le (sort_by_area k)
     /\ head w' = head w /\ tape w' = tape w
     /\ (if verbose
         then exists bpr aat,
             log w' = log w ++ [Log_results (sort_by_area k) bpr aat]
         else log w' = log w)).
Proof.
  split.
  - intros ->. reflexivity.
  - intros Hk. pose proof (sort_by_area_nonempty k Hk) as Hs.
    unfold print_results, bind, lift, metric_x_best. cbv zeta.
    destruct (sort_by_area k) as [|a l] eqn:E; [congruence|].
    cbn [List.length max_axis1 ret]. rewrite <- E.
    destruct verbose; cbn.
    + eexists. split; [reflexivity|].
      split; [apply sort_by_area_perm|]. split; [apply sort_by_area_sorted|].
      cbn. repeat split. do 2 eexists. reflexivity.
    + exists w. split; [reflexivity|].
      split; [apply sort_by_area_perm|]. split; [apply sort_by_area_sorted|].
      repeat split.
Qed.

Lemma print_results_sorts_witness :
  print_results [(10, 10)] (1 / 4) 0 [] true (world_of head_small)
  = Exc IndexError (world_of head_small)
  /\ exists w' : world,
      print_results [(10, 10)] (1 / 4) 3 [(9, 9); (2, 3); (4, 4)] false
                    (world_of head_small)
      = Ret [(2, 3); (4, 4); (9, 9)] w'
      /\ log w' = [].
Proof.
  split.
  - now apply (proj1 (print_results_sorts [(10, 10)] (1 / 4) 0 [] true
                        (world_of head_small))).
  - destruct (proj2 (print_results_sorts [(10, 10)] (1 / 4) 3
                       [(9, 9); (2, 3); (4, 4)] false (world_of head_small)))
      as [w' [Hrun [_ [_ [_ [_ Hlog]]]]]]; [discriminate|].
    exists w'. split; [exact Hrun|exact Hlog].
Defined.
